(** * go-server-v1: the postal-code address service (main.go)

    A shallow embedding of [main.go]: the configuration step ([dbConnStr]),
    the two handlers ([getAddress], [getAccessLogs]) and the address helper
    ([CommonPrefix]), with the properties of the specification stated over
    them.

    Conventions.
    - A Go [string] is a sequence of bytes: Rocq's [string], one [ascii] per
      byte.  A [rune] is an [int32], kept as a [Z].
    - A Go [float64] is a primitive binary64 [float].
    - Index expressions that panic when out of range return [None].
    - The database, the clock, the HTTP client and the libraries the
      handlers call ([strconv.ParseFloat], [haversine.Distance],
      [json.Unmarshal]) are not part of the repository: their answers are
      inputs of the handlers. *)

From Stdlib Require Import ZArith Floats String Ascii Lia.
From stdpp Require Import base option list strings gmap.

Open Scope string_scope.
Open Scope Z_scope.
Open Scope list_scope.

Set Warnings "-inexact-float,-register-all".

(** ** Bytes and runes *)

Definition rune := Z.

(** The numeric value of a byte, and the conversion [byte(x)], which keeps
    the low eight bits. *)
Definition byte_val (c : ascii) : Z := Z.of_N (N_of_ascii c).
Definition byte_of (x : Z) : ascii := ascii_of_N (Z.to_N (x mod 256)).

(** Constants of the Go runtime's UTF-8 routines (runtime/utf8.go). *)
Module utf8.
Definition runeError : rune := 0xFFFD.
Definition runeSelf : Z := 0x80.
Definition maxRune : rune := 0x10FFFF.
Definition surrogateMin : rune := 0xD800.
Definition surrogateMax : rune := 0xDFFF.
Definition tx : Z := 0x80.
Definition t2 : Z := 0xC0.
Definition t3 : Z := 0xE0.
Definition t4 : Z := 0xF0.
Definition t5 : Z := 0xF8.
Definition maskx : Z := 0x3F.
Definition mask2 : Z := 0x1F.
Definition mask3 : Z := 0x0F.
Definition mask4 : Z := 0x07.
Definition rune1Max : rune := 0x7F.
Definition rune2Max : rune := 0x7FF.
Definition rune3Max : rune := 0xFFFF.
Definition locb : Z := 0x80.
Definition hicb : Z := 0xBF.
End utf8.
Import utf8.

(** [locb <= b && b <= hicb]: [b] is a continuation byte. *)
Definition is_cont (b : Z) : bool := (locb <=? b) && (b <=? hicb).

(** [s[i]] as a number, [None] when [i] is not below [len(s)]. *)
Definition byte_at (s : string) (i : nat) : option Z :=
  byte_val <$> String.get i s.

(** [len(s) > i && locb <= s[i] && s[i] <= hicb], giving the byte. *)
Definition cont_at (s : string) (i : nat) : option Z :=
  match byte_at s i with
  | Some b => if is_cont b then Some b else None
  | None => None
  end.

(** [decoderune(s, k)] of the runtime, on the suffix [s[k:]]: the rune at
    the head of the string and the number of bytes it takes.  An ill-formed
    or truncated sequence gives [runeError] and a width of one byte. *)
Definition decoderune (s : string) : rune * nat :=
  match byte_at s 0 with
  | None => (runeError, 1%nat)
  | Some b0 =>
    if (t2 <=? b0) && (b0 <? t3) then
      match cont_at s 1 with
      | Some b1 =>
        let r := Z.lor (Z.shiftl (Z.land b0 mask2) 6) (Z.land b1 maskx) in
        if rune1Max <? r then (r, 2%nat) else (runeError, 1%nat)
      | None => (runeError, 1%nat)
      end
    else if (t3 <=? b0) && (b0 <? t4) then
      match cont_at s 1, cont_at s 2 with
      | Some b1, Some b2 =>
        let r := Z.lor (Z.lor (Z.shiftl (Z.land b0 mask3) 12)
                              (Z.shiftl (Z.land b1 maskx) 6))
                       (Z.land b2 maskx) in
        if (rune2Max <? r)
           && negb ((surrogateMin <=? r) && (r <=? surrogateMax))
        then (r, 3%nat) else (runeError, 1%nat)
      | _, _ => (runeError, 1%nat)
      end
    else if (t4 <=? b0) && (b0 <? t5) then
      match cont_at s 1, cont_at s 2, cont_at s 3 with
      | Some b1, Some b2, Some b3 =>
        let r := Z.lor (Z.lor (Z.lor (Z.shiftl (Z.land b0 mask4) 18)
                                     (Z.shiftl (Z.land b1 maskx) 12))
                              (Z.shiftl (Z.land b2 maskx) 6))
                       (Z.land b3 maskx) in
        if (rune3Max <? r) && (r <=? maxRune)
        then (r, 4%nat) else (runeError, 1%nat)
      | _, _, _ => (runeError, 1%nat)
      end
    else (runeError, 1%nat)
  end.

(** [s[n:]]. *)
Fixpoint string_drop (n : nat) (s : string) : string :=
  match n, s with
  | O, _ => s
  | S n', String _ s' => string_drop n' s'
  | S _, EmptyString => EmptyString
  end.

(** [for _, r := range s]: the runes of [s] in order.  A byte below
    [runeSelf] is its own rune; the others go through [decoderune].  Every
    step consumes at least one byte, so [len(s)] steps are enough. *)
Fixpoint range_string (fuel : nat) (s : string) : list rune :=
  match fuel with
  | O => []
  | S fuel' =>
    match s with
    | EmptyString => []
    | String c0 rest =>
      if byte_val c0 <? runeSelf then byte_val c0 :: range_string fuel' rest
      else
        let '(r, w) := decoderune s in
        r :: range_string fuel' (string_drop w s)
    end
  end.

(** The conversion [[]rune(s)] (runtime.stringtoslicerune). *)
Definition stringtoslicerune (s : string) : list rune :=
  range_string (String.length s) s.

(** [encoderune(p, r)] of the runtime: the bytes written for [r].  A
    negative rune, a surrogate and a value above [maxRune] are written as
    [runeError]. *)
Definition encoderune (r : rune) : string :=
  let i := r mod 2 ^ 32 in
  let three (r : rune) :=
    String (byte_of (Z.lor t3 (Z.shiftr r 12)))
      (String (byte_of (Z.lor tx (Z.land (Z.shiftr r 6) maskx)))
         (String (byte_of (Z.lor tx (Z.land r maskx))) EmptyString)) in
  if i <=? rune1Max then String (byte_of r) EmptyString
  else if i <=? rune2Max then
    String (byte_of (Z.lor t2 (Z.shiftr r 6)))
      (String (byte_of (Z.lor tx (Z.land r maskx))) EmptyString)
  else if (maxRune <? i) || ((surrogateMin <=? i) && (i <=? surrogateMax))
  then three runeError
  else if i <=? rune3Max then three r
  else
    String (byte_of (Z.lor t4 (Z.shiftr r 18)))
      (String (byte_of (Z.lor tx (Z.land (Z.shiftr r 12) maskx)))
         (String (byte_of (Z.lor tx (Z.land (Z.shiftr r 6) maskx)))
            (String (byte_of (Z.lor tx (Z.land r maskx))) EmptyString))).

(** The conversion [string(a)] of a rune slice (runtime.slicerunetostring). *)
Fixpoint slicerunetostring (a : list rune) : string :=
  match a with
  | [] => EmptyString
  | r :: a' => encoderune r +:+ slicerunetostring a'
  end.

(** ** CommonPrefix *)

(** The inner loop [for i := range prefix { if prefix[i] != strRune[i]
    { prefix = prefix[:i]; break } }], from index [i] with [n] iterations
    left.  The range expression is evaluated once, and [prefix] changes
    only on the iteration that leaves the loop. *)
Fixpoint CommonPrefix_scan (prefix strRune : list rune) (i n : nat)
  : option (list rune) :=
  match n with
  | O => Some prefix
  | S n' =>
    p ← prefix !! i;
    q ← strRune !! i;
    if bool_decide (p ≠ q) then Some (take i prefix)
    else CommonPrefix_scan prefix strRune (S i) n'
  end.

(** The body of [for _, str := range strs]. *)
Definition CommonPrefix_body (prefix : list rune) (str : string)
  : option (list rune) :=
  let strRune := stringtoslicerune str in
  let prefix :=
    if bool_decide (length strRune < length prefix)%nat
    then take (length strRune) prefix else prefix in
  CommonPrefix_scan prefix strRune 0 (length prefix).

Fixpoint CommonPrefix_loop (prefix : list rune) (strs : list string)
  : option (list rune) :=
  match strs with
  | [] => Some prefix
  | str :: strs' =>
    prefix' ← CommonPrefix_body prefix str;
    CommonPrefix_loop prefix' strs'
  end.

(** [func CommonPrefix(strs []string) string]; [None] is a run-time panic. *)
Definition CommonPrefix (strs : list string) : option string :=
  match strs with
  | [] => Some "Error: func commonPrefix"
  | str0 :: _ =>
    prefix ← CommonPrefix_loop (stringtoslicerune str0) strs;
    if bool_decide (length prefix = 0%nat) then Some "None"
    else Some (slicerunetostring prefix)
  end.

(** ** Floating point

    [float64] values are primitive binary64 floats, so [*], [/] and [>]
    below are the IEEE operations the Go program performs. *)

(** [math.Round(x)]: the nearest integer, rounding half away from zero;
    [±0], [±Inf], NaN and every value without a fractional part are
    returned unchanged.  A finite [x] is [±m * 2^e] exactly; for [e < 0]
    the integer part is [m / 2^-e] and the fraction is at least one half
    exactly when [2 * (m mod 2^-e) >= 2^-e]. *)
Definition Round (x : float) : float :=
  match Prim2SF x with
  | S754_finite s m e =>
    if 0 <=? e then x
    else
      let d := 2 ^ (- e) in
      let q := Z.pos m / d in
      let r := Z.pos m mod d in
      let n := if d <=? 2 * r then q + 1 else q in
      let f := PrimFloat.of_uint63 (Uint63.of_Z n) in
      if s then (- f)%float else f
  | _ => x
  end.

(** ** Data of the program *)

Record Location := {
  City : string;
  Town : string;
  X : string;
  Y : string;
  Prefecture : string;
  Postal : string
}.

(** [APIResponse] with its nested [Response] struct flattened: the one
    field the program reads is [Response.Location]. *)
Record APIResponse := { Response_Location : list Location }.

Record AppResponse := {
  PostalCode : string;
  HitCount : Z;
  Address : string;
  TokyoStaDistance : float
}.

Definition tokyoX : float := 139.7673068%float.
Definition tokyoY : float := 35.6809591%float.

Record AppConfig := {
  DBHost : string;
  DBName : string;
  Password : string
}.

Record AccessLog := {
  AccessLog_PostalCode : string;
  AccessLog_RequestCount : Z
}.

(** [haversine.Coord]. *)
Record Coord := { Lat : float; Lon : float }.

(** A Go slice is [nil] or holds elements; [encoding/json] tells the two
    apart. *)
Inductive slice (A : Type) :=
| nil_slice
| make_slice (elems : list A).
Arguments nil_slice {A}.
Arguments make_slice {A} elems.

(** [append(s, x)]. *)
Definition append {A} (s : slice A) (x : A) : slice A :=
  match s with
  | nil_slice => make_slice [x]
  | make_slice l => make_slice (l ++ [x])
  end.

(** ** JSON values and responses *)

Inductive JSON :=
| JNull
| JString (s : string)
| JInt (n : Z)
| JFloat (f : float)
| JArray (elems : list JSON)
| JObject (fields : list (string * JSON)).

(** What the handler hands to [c.JSON(code, value)]: the status code and
    the value, as the JSON it encodes to. *)
Record HTTPResponse := { status : Z; body : JSON }.

Definition StatusOK : Z := 200.
Definition StatusInternalServerError : Z := 500.

(** [map[string]string{"error": msg}]. *)
Definition error_body (msg : string) : JSON := JObject [("error", JString msg)].

(** [AppResponse] through its [json] tags. *)
Definition marshal_AppResponse (r : AppResponse) : JSON :=
  JObject [("postal_code", JString (PostalCode r));
           ("hit_count", JInt (HitCount r));
           ("address", JString (Address r));
           ("tokyo_sta_distance", JFloat (TokyoStaDistance r))].

Definition marshal_AccessLog (l : AccessLog) : JSON :=
  JObject [("postal_code", JString (AccessLog_PostalCode l));
           ("request_count", JInt (AccessLog_RequestCount l))].

(** [encoding/json]: a slice encodes as a JSON array, except that a nil
    slice encodes as the null JSON value. *)
Definition marshal_slice {A} (f : A → JSON) (s : slice A) : JSON :=
  match s with
  | nil_slice => JNull
  | make_slice l => JArray (f <$> l)
  end.

(** ** Configuration *)

(** [func dbConnStr(config AppConfig) (string, error)]: the string and the
    error, [None] for [nil]. *)
Definition dbConnStr (config : AppConfig) : string * option string :=
  let dbHost := DBHost config in
  let dbName := DBName config in
  let password := Password config in
  if String.eqb password "" then
    ("", Some "missing or invalid database password")
  else
    let connStr :=
      "host=" +:+ dbHost +:+ " user=postgres password=" +:+ password
      +:+ " dbname=" +:+ dbName +:+ " sslmode=disable" in
    (connStr, None).

(** [os.Getenv(key)]: the value, empty when the variable is not set. *)
Definition Getenv (env : gmap string string) (key : string) : string :=
  default "" (env !! key).

(** How the start of [main] ends: [log.Fatal] with a message, or the
    server running on a connection string. *)
Inductive Startup :=
| Fatal (msg : string)
| Serving (connStr : string).

(** [main] up to [sql.Open]: [load_err] is the error of [godotenv.Load],
    [env] the process environment after it, [open_err] the error of
    [sql.Open]. *)
Definition main_startup (load_err : option string) (env : gmap string string)
    (open_err : option string) : Startup :=
  match load_err with
  | Some _ => Fatal "Error loading .env file"
  | None =>
    let config := {| DBHost := Getenv env "DB_HOST";
                     DBName := Getenv env "DB_NAME";
                     Password := Getenv env "PASSWORD" |} in
    match dbConnStr config with
    | (_, Some err) => Fatal err
    | (connStr, None) =>
      match open_err with
      | Some err => Fatal ("Failed to connect to database:" +:+ err)
      | None => Serving connStr
      end
    end
  end.

(** ** The world of a handler

    The access-log table holds rows (postal_code, created_at); the trace
    records, in order, the calls a handler issues to the database and to
    the geocoding service. *)

Definition Time := Z.

Inductive Event :=
| EvExecInsert (postal_code : string) (created_at : Time)
| EvQuery
| EvHTTPGet (url : string).

Record World := {
  access_logs : list (string * Time);
  trace : list Event
}.

Definition emit (e : Event) (w : World) : World :=
  {| access_logs := access_logs w; trace := trace w ++ [e] |}.

(** [db.Exec("INSERT INTO access_logs (postal_code, created_at) VALUES
    ($1, $2)", postal_code, created_at)]: the statement is issued; with no
    error the row is in the table, with an error nothing is stored. *)
Definition db_Exec_insert (err : option string) (postal_code : string)
    (created_at : Time) (w : World) : World * option string :=
  let w := emit (EvExecInsert postal_code created_at) w in
  match err with
  | Some e => (w, Some e)
  | None =>
    ({| access_logs := access_logs w ++ [(postal_code, created_at)];
        trace := trace w |}, None)
  end.

(** What the geocoding service does with one request: [http.Get] fails,
    or it answers and [ioutil.ReadAll(resp.Body)] fails or gives the
    body. *)
Inductive GetResult :=
| GetError (msg : string)
| GetBody (read : string + string).

(** The answers of the environment to one [/address] request. *)
Record AddressEnv := {
  time_Now : Time;
  exec_err : option string;
  http_Get : string → GetResult
}.

(** The [Err] of a [*strconv.NumError]: the string is not a number
    ([ErrSyntax]) or the number is out of range ([ErrRange]). *)
Inductive NumError := ErrSyntax | ErrRange.

(** The URL [getAddress] requests; the postal code is not escaped. *)
Definition geocoding_url (postalCode : string) : string :=
  "https://geoapi.heartrails.com/api/json?method=searchByPostal&postal="
  +:+ postalCode.

Section Handlers.

(** Library functions the handlers call.  [ParseFloat s] is
    [strconv.ParseFloat(s, 64)]: the value and the error.
    [Distance p q] is [haversine.Distance(p, q)]: miles and kilometres.
    [Unmarshal body] is [json.Unmarshal(body, &apiResponse)]: the error,
    or the decoded response. *)
Variable ParseFloat : string → float * option NumError.
Variable Distance : Coord → Coord → float * float.
Variable Unmarshal : string → string + APIResponse.

(** [location.Prefecture + location.City + location.Town]. *)
Definition address_of (location : Location) : string :=
  (Prefecture location +:+ City location) +:+ Town location.

(** The first loop of [getAddress], at index [i]: [addresses[i] = ...]
    panics when [i] is out of range; [len] counts bytes. *)
Fixpoint shortest_loop (i : nat) (locations : list Location)
    (addresses : list string) (shortestAddress : string)
  : option (list string * string) :=
  match locations with
  | [] => Some (addresses, shortestAddress)
  | location :: rest =>
    if bool_decide (i < length addresses)%nat then
      let addresses := <[i := address_of location]> addresses in
      a ← addresses !! i;
      let shortestAddress :=
        if String.eqb shortestAddress ""
           || (String.length a <? String.length shortestAddress)%nat
        then a else shortestAddress in
      shortest_loop (S i) rest addresses shortestAddress
    else None
  end.

(** The second loop: the maximum distance to Tokyo Station. *)
Fixpoint distance_loop (locations : list Location) (maxDistance : float)
  : float :=
  match locations with
  | [] => maxDistance
  | location :: rest =>
    let x := (ParseFloat (X location)).1 in
    let y := (ParseFloat (Y location)).1 in
    let km := (Distance {| Lat := tokyoY; Lon := tokyoX |}
                        {| Lat := y; Lon := x |}).2 in
    distance_loop rest (if (maxDistance <? km)%float then km
                        else maxDistance)
  end.

(** [func getAddress(c echo.Context, db *sql.DB) error] on the query
    parameter [postalCode]: the world afterwards and the response sent,
    [None] when the handler panics. *)
Definition getAddress (env : AddressEnv) (postalCode : string) (w : World)
  : World * option HTTPResponse :=
  let '(w, err) := db_Exec_insert (exec_err env) postalCode (time_Now env) w in
  match err with
  | Some e =>
    (w, Some {| status := StatusInternalServerError; body := error_body e |})
  | None =>
    let url := geocoding_url postalCode in
    let w := emit (EvHTTPGet url) w in
    match http_Get env url with
    | GetError e =>
      (w, Some {| status := StatusInternalServerError; body := error_body e |})
    | GetBody (inl e) =>
      (w, Some {| status := StatusInternalServerError; body := error_body e |})
    | GetBody (inr body) =>
      match Unmarshal body with
      | inl e =>
        (w, Some {| status := StatusInternalServerError;
                    body := error_body e |})
      | inr apiResponse =>
        let locations := Response_Location apiResponse in
        match shortest_loop 0 locations
                (replicate (length locations) "") "" with
        | None => (w, None)
        | Some (addresses, shortestAddress) =>
          let maxDistance := distance_loop locations 0%float in
          match CommonPrefix addresses with
          | None => (w, None)
          | Some address =>
            let appResponse :=
              {| PostalCode := postalCode;
                 HitCount := Z.of_nat (length locations);
                 Address := address;
                 TokyoStaDistance := (Round (maxDistance * 10) / 10)%float |} in
            (w, Some {| status := StatusOK;
                        body := marshal_AppResponse appResponse |})
          end
        end
      end
    end
  end.

(** [getAddress] with the statements on [shortestAddress] removed: the
    first loop only fills [addresses]. *)
Fixpoint addresses_loop (i : nat) (locations : list Location)
    (addresses : list string) : option (list string) :=
  match locations with
  | [] => Some addresses
  | location :: rest =>
    if bool_decide (i < length addresses)%nat then
      addresses_loop (S i) rest (<[i := address_of location]> addresses)
    else None
  end.

Definition getAddress_without_shortestAddress (env : AddressEnv)
    (postalCode : string) (w : World) : World * option HTTPResponse :=
  let '(w, err) := db_Exec_insert (exec_err env) postalCode (time_Now env) w in
  match err with
  | Some e =>
    (w, Some {| status := StatusInternalServerError; body := error_body e |})
  | None =>
    let url := geocoding_url postalCode in
    let w := emit (EvHTTPGet url) w in
    match http_Get env url with
    | GetError e =>
      (w, Some {| status := StatusInternalServerError; body := error_body e |})
    | GetBody (inl e) =>
      (w, Some {| status := StatusInternalServerError; body := error_body e |})
    | GetBody (inr body) =>
      match Unmarshal body with
      | inl e =>
        (w, Some {| status := StatusInternalServerError;
                    body := error_body e |})
      | inr apiResponse =>
        let locations := Response_Location apiResponse in
        match addresses_loop 0 locations
                (replicate (length locations) "") with
        | None => (w, None)
        | Some addresses =>
          let maxDistance := distance_loop locations 0%float in
          match CommonPrefix addresses with
          | None => (w, None)
          | Some address =>
            let appResponse :=
              {| PostalCode := postalCode;
                 HitCount := Z.of_nat (length locations);
                 Address := address;
                 TokyoStaDistance := (Round (maxDistance * 10) / 10)%float |} in
            (w, Some {| status := StatusOK;
                        body := marshal_AppResponse appResponse |})
          end
        end
      end
    end
  end.

End Handlers.

(** ** The access-log summary *)

(** One step of [rows.Next()] followed by [rows.Scan]: a scan error, or
    the row. *)
Inductive ScanResult :=
| ScanError (msg : string)
| ScanRow (postal_code : string) (request_count : Z).

(** The answer of the database to the grouped query: [db.Query] fails, or
    it gives the rows that [rows.Next] walks and the final [rows.Err()]. *)
Inductive QueryResult :=
| QueryError (msg : string)
| QueryRows (rows : list ScanResult) (rows_err : option string).

(** [for rows.Next() { ... }]: the error that leaves the handler, or the
    slice built. *)
Fixpoint scan_loop (rows : list ScanResult) (logs : slice AccessLog)
  : string + slice AccessLog :=
  match rows with
  | [] => inr logs
  | ScanError e :: _ => inl e
  | ScanRow postal_code request_count :: rest =>
    let log := {| AccessLog_PostalCode := postal_code;
                  AccessLog_RequestCount := request_count |} in
    scan_loop rest (append logs log)
  end.

(** [func getAccessLogs(c echo.Context, db *sql.DB) error]. *)
Definition getAccessLogs (q : QueryResult) (w : World) : World * HTTPResponse :=
  let w := emit EvQuery w in
  match q with
  | QueryError e =>
    (w, {| status := StatusInternalServerError; body := error_body e |})
  | QueryRows rows rows_err =>
    match scan_loop rows nil_slice with
    | inl e =>
      (w, {| status := StatusInternalServerError; body := error_body e |})
    | inr logs =>
      match rows_err with
      | Some e =>
        (w, {| status := StatusInternalServerError; body := error_body e |})
      | None =>
        (w, {| status := StatusOK;
               body := JObject [("access_logs",
                                 marshal_slice marshal_AccessLog logs)] |})
      end
    end
  end.

(** ** Notions of the specification *)

(** A Unicode scalar value: a code point that is not a surrogate. *)
Definition scalar (r : rune) : Prop :=
  0 <= r <= maxRune ∧ ¬ (surrogateMin <= r <= surrogateMax).

(** Well-formed UTF-8: the encoding of a sequence of scalar values. *)
Definition well_formed (s : string) : Prop :=
  ∃ rs : list rune, Forall scalar rs ∧ s = slicerunetostring rs.

(** [p] is an initial sequence of every list of [ls]. *)
Definition common_prefix (p : list rune) (ls : list (list rune)) : Prop :=
  Forall (λ l, p `prefix_of` l) ls.

(** [p] is the longest one: every other is an initial sequence of [p], so
    none is longer. *)
Definition longest_common_prefix (p : list rune) (ls : list (list rune))
  : Prop :=
  common_prefix p ls ∧ ∀ q, common_prefix q ls → q `prefix_of` p.

(** The greatest lower bound of [P] and [R] for the prefix order: what one
    pass of the inner loop of [CommonPrefix] leaves. *)
Definition meet (m P R : list rune) : Prop :=
  m `prefix_of` P ∧ m `prefix_of` R
  ∧ ∀ q, q `prefix_of` P → q `prefix_of` R → q `prefix_of` m.

(** The world after the insert was issued, and after the geocoding request
    that follows a successful insert. *)
Definition after_insert (env : AddressEnv) (postalCode : string) (w : World)
  : World :=
  {| access_logs := access_logs w;
     trace := trace w ++ [EvExecInsert postalCode (time_Now env)] |}.

Definition after_geocoding (env : AddressEnv) (postalCode : string)
    (w : World) : World :=
  {| access_logs := access_logs w ++ [(postalCode, time_Now env)];
     trace := (trace w ++ [EvExecInsert postalCode (time_Now env)])
              ++ [EvHTTPGet (geocoding_url postalCode)] |}.

(** The geocoding call of [getAddress] fails with message [e]: a network
    error, a body-read error or a JSON-parse error. *)
Definition geocoding_fails (Unmarshal : string → string + APIResponse)
    (env : AddressEnv) (postalCode : string) (e : string) : Prop :=
  match http_Get env (geocoding_url postalCode) with
  | GetError e' => e' = e
  | GetBody (inl e') => e' = e
  | GetBody (inr body) => Unmarshal body = inl e
  end.

(** The distance of one candidate to Tokyo Station, as the second loop of
    [getAddress] computes it. *)
Definition candidate_km (ParseFloat : string → float * option NumError)
    (Distance : Coord → Coord → float * float) (location : Location) : float :=
  (Distance {| Lat := tokyoY; Lon := tokyoX |}
            {| Lat := (ParseFloat (Y location)).1;
               Lon := (ParseFloat (X location)).1 |}).2.

(** The distance computation as the specification words it: a coordinate
    field that is not a number counts as zero. *)
Definition lenient_coordinate (ParseFloat : string → float * option NumError)
    (field : string) : float :=
  match ParseFloat field with
  | (_, Some ErrSyntax) => 0%float
  | (v, _) => v
  end.

Definition lenient_max_distance
    (ParseFloat : string → float * option NumError)
    (Distance : Coord → Coord → float * float)
    (locations : list Location) : float :=
  foldl (λ maxDistance location,
           let km := (Distance {| Lat := tokyoY; Lon := tokyoX |}
                        {| Lat := lenient_coordinate ParseFloat (Y location);
                           Lon := lenient_coordinate ParseFloat (X location) |}).2 in
           if (maxDistance <? km)%float then km else maxDistance)
        0%float locations.

(** The sign and the magnitude of a binary64 number that is an integer:
    [f] is [+n] or [-n], the sign of a zero included. *)
Definition SF_integer (f : spec_float) (s : bool) (n : Z) : Prop :=
  match f with
  | S754_zero s' => s' = s ∧ n = 0
  | S754_finite s' m e =>
    s' = s ∧ Z.pos m * 2 ^ Z.max e 0 = n * 2 ^ Z.max (- e) 0
  | _ => False
  end.

(** [y] is [x] rounded to the nearest integer, halves away from zero.  A
    finite [x] of sign [s] and magnitude [m * 2^e] gives the integer of
    sign [s] and magnitude [n] with [n - 1/2 <= m * 2^e < n + 1/2] (both
    sides are multiplied by [2 * 2^-e] when [e] is negative); zeros,
    infinities and NaN are unchanged. *)
Definition rounds_half_away_from_zero (x y : spec_float) : Prop :=
  match x with
  | S754_finite s m e =>
    ∃ n : Z,
      SF_integer y s n
      ∧ (2 * n - 1) * 2 ^ Z.max (- e) 0 <= 2 * (Z.pos m * 2 ^ Z.max e 0)
        < (2 * n + 1) * 2 ^ Z.max (- e) 0
  | _ => y = x
  end.

(** A row that [rows.Scan] reads without error into [log]. *)
Definition scanned (log : AccessLog) : ScanResult :=
  ScanRow (AccessLog_PostalCode log) (AccessLog_RequestCount log).

(** ** Stand-ins for the libraries, used in examples

    A parser that knows a few literals and reports everything else as a
    syntax error, a flat-earth distance, and a decoder that knows two
    bodies. *)

Definition example_ParseFloat (s : string) : float * option NumError :=
  if String.eqb s "139.7673068" then (139.7673068%float, None)
  else if String.eqb s "35.6809591" then (35.6809591%float, None)
  else if String.eqb s "139.75" then (139.75%float, None)
  else if String.eqb s "35.5" then (35.5%float, None)
  else if String.eqb s "1e999" then (infinity, Some ErrRange)
  else (0%float, Some ErrSyntax).

Definition example_Distance (p q : Coord) : float * float :=
  let dlat := abs (Lat p - Lat q) in
  let dlon := abs (Lon p - Lon q) in
  ((dlat * 69 + dlon * 56)%float, (dlat * 111 + dlon * 91)%float).

Definition marunouchi : Location :=
  {| City := "千代田区"; Town := "丸の内"; X := "139.7673068";
     Y := "35.6809591"; Prefecture := "東京都"; Postal := "1000005" |}.

Definition otemachi : Location :=
  {| City := "千代田区"; Town := "大手町"; X := "139.75";
     Y := "not a number"; Prefecture := "東京都"; Postal := "1000004" |}.

Definition example_Unmarshal (body : string) : string + APIResponse :=
  if String.eqb body "two" then
    inr {| Response_Location := [marunouchi; otemachi] |}
  else if String.eqb body "none" then inr {| Response_Location := [] |}
  else inl "invalid character".

Definition example_world : World :=
  {| access_logs := [("1500001", 1)]; trace := [] |}.

Definition example_env (exec : option string) (get : GetResult) : AddressEnv :=
  {| time_Now := 2; exec_err := exec; http_Get := λ _, get |}.

(** * Properties *)

(** ** Bytes *)

Lemma byte_val_range c : 0 <= byte_val c < 256.
Proof.
  unfold byte_val. pose proof (N_ascii_bounded c) as H.
  apply N2Z.inj_lt in H. simpl in H. lia.
Qed.

Lemma byte_val_of z : 0 <= z < 256 → byte_val (byte_of z) = z.
Proof.
  intros Hz. unfold byte_val, byte_of.
  rewrite Z.mod_small by lia.
  rewrite N_ascii_embedding.
  - apply Z2N.id. lia.
  - change 256%N with (Z.to_N 256). apply Z2N.inj_lt; lia.
Qed.

Lemma byte_of_val c : byte_of (byte_val c) = c.
Proof.
  unfold byte_of. pose proof (byte_val_range c).
  rewrite Z.mod_small by lia. unfold byte_val.
  rewrite N2Z.id. apply ascii_N_embedding.
Qed.

(** ** Bit operations as arithmetic *)

Lemma lor_disjoint x y k :
  0 <= k → 0 <= y < 2 ^ k → x mod 2 ^ k = 0 → Z.lor x y = x + y.
Proof.
  intros Hk Hy Hx. symmetry. apply Z.add_nocarry_lor.
  apply Z.bits_inj'. intros n Hn.
  rewrite Z.land_spec, Z.bits_0.
  destruct (Z.lt_ge_cases n k) as [Hlt|Hge].
  - rewrite <- (Z.mod_pow2_bits_low x k n) by lia.
    rewrite Hx, Z.bits_0. reflexivity.
  - destruct (Z.eq_dec y 0) as [->|Hy0].
    + rewrite Z.bits_0. apply andb_false_r.
    + rewrite (Z.bits_above_log2 y n); [apply andb_false_r | lia |].
      apply Z.log2_lt_pow2; [lia|].
      pose proof (Z.pow_le_mono_r 2 k n). lia.
Qed.

Lemma land_ones_mod x k : 0 <= k → Z.land x (2 ^ k - 1) = x mod 2 ^ k.
Proof.
  intros Hk.
  replace (2 ^ k - 1) with (Z.ones k) by (rewrite Z.ones_equiv; lia).
  apply Z.land_ones; lia.
Qed.

(** Linear arithmetic with division and remainder by constants. *)
Ltac dlia := Z.to_euclidean_division_equations; lia.

Lemma lor_tx y : 0 <= y < 64 → Z.lor tx y = 128 + y.
Proof. intros. apply (lor_disjoint 128 y 6); [lia | simpl; lia | reflexivity]. Qed.
Lemma lor_t2 y : 0 <= y < 32 → Z.lor t2 y = 192 + y.
Proof. intros. apply (lor_disjoint 192 y 5); [lia | simpl; lia | reflexivity]. Qed.
Lemma lor_t3 y : 0 <= y < 16 → Z.lor t3 y = 224 + y.
Proof. intros. apply (lor_disjoint 224 y 4); [lia | simpl; lia | reflexivity]. Qed.
Lemma lor_t4 y : 0 <= y < 8 → Z.lor t4 y = 240 + y.
Proof. intros. apply (lor_disjoint 240 y 3); [lia | simpl; lia | reflexivity]. Qed.

Lemma land_maskx b : Z.land b maskx = b mod 64.
Proof. apply (land_ones_mod b 6). lia. Qed.
Lemma land_mask2 b : Z.land b mask2 = b mod 32.
Proof. apply (land_ones_mod b 5). lia. Qed.
Lemma land_mask3 b : Z.land b mask3 = b mod 16.
Proof. apply (land_ones_mod b 4). lia. Qed.
Lemma land_mask4 b : Z.land b mask4 = b mod 8.
Proof. apply (land_ones_mod b 3). lia. Qed.

Lemma shiftr_6 r : Z.shiftr r 6 = r / 64.
Proof. apply (Z.shiftr_div_pow2 r 6). lia. Qed.
Lemma shiftr_12 r : Z.shiftr r 12 = r / 4096.
Proof. apply (Z.shiftr_div_pow2 r 12). lia. Qed.
Lemma shiftr_18 r : Z.shiftr r 18 = r / 262144.
Proof. apply (Z.shiftr_div_pow2 r 18). lia. Qed.
Lemma shiftl_6 r : Z.shiftl r 6 = r * 64.
Proof. apply (Z.shiftl_mul_pow2 r 6). lia. Qed.
Lemma shiftl_12 r : Z.shiftl r 12 = r * 4096.
Proof. apply (Z.shiftl_mul_pow2 r 12). lia. Qed.
Lemma shiftl_18 r : Z.shiftl r 18 = r * 262144.
Proof. apply (Z.shiftl_mul_pow2 r 18). lia. Qed.

(** The rune assembled from the payloads of two, three and four bytes. *)
Lemma assemble2 a b :
  0 <= b < 64 → Z.lor (Z.shiftl a 6) b = a * 64 + b.
Proof.
  intros. rewrite shiftl_6. apply (lor_disjoint _ b 6); [lia | simpl; lia |].
  apply Z.mod_mul. lia.
Qed.

Lemma assemble3 a b c :
  0 <= b < 64 → 0 <= c < 64 →
  Z.lor (Z.lor (Z.shiftl a 12) (Z.shiftl b 6)) c = a * 4096 + b * 64 + c.
Proof.
  intros. rewrite shiftl_6, shiftl_12.
  rewrite (lor_disjoint (a * 4096) (b * 64) 12); [| lia | simpl; lia |].
  - apply (lor_disjoint _ c 6); [lia | simpl; lia |].
    replace (a * 4096 + b * 64) with ((a * 64 + b) * 64) by lia.
    apply Z.mod_mul. lia.
  - change 4096 with (2 ^ 12). apply Z.mod_mul. lia.
Qed.

Lemma assemble4 a b c d :
  0 <= b < 64 → 0 <= c < 64 → 0 <= d < 64 →
  Z.lor (Z.lor (Z.lor (Z.shiftl a 18) (Z.shiftl b 12)) (Z.shiftl c 6)) d
  = a * 262144 + b * 4096 + c * 64 + d.
Proof.
  intros. rewrite shiftl_18, shiftl_12, shiftl_6.
  rewrite (lor_disjoint (a * 262144) (b * 4096) 18); [| lia | simpl; lia |].
  - rewrite (lor_disjoint _ (c * 64) 12); [| lia | simpl; lia |].
    + apply (lor_disjoint _ d 6); [lia | simpl; lia |].
      replace (a * 262144 + b * 4096 + c * 64)
        with ((a * 4096 + b * 64 + c) * 64) by lia.
      apply Z.mod_mul. lia.
    + replace (a * 262144 + b * 4096) with ((a * 64 + b) * 2 ^ 12) by lia.
      apply Z.mod_mul. lia.
  - change 262144 with (2 ^ 18). apply Z.mod_mul. lia.
Qed.

Lemma byte_at_range s i b : byte_at s i = Some b → 0 <= b < 256.
Proof.
  unfold byte_at. destruct (String.get i s) as [c|]; simpl; [|done].
  intros [= <-]. apply byte_val_range.
Qed.

Lemma cont_at_range s i b : cont_at s i = Some b → 128 <= b <= 191.
Proof.
  unfold cont_at, is_cont, locb, hicb.
  destruct (byte_at s i) as [b'|]; [|done].
  destruct (Z.leb_spec 128 b'), (Z.leb_spec b' 191); simpl; try done.
  intros [= <-]. lia.
Qed.

Lemma scalar_runeError : scalar runeError.
Proof. unfold scalar, runeError, maxRune, surrogateMin, surrogateMax. lia. Qed.

(** Every rune that [decoderune] gives is a scalar value, and it takes at
    least one byte. *)
Lemma decoderune_scalar s : scalar (decoderune s).1.
Proof.
  unfold decoderune.
  destruct (byte_at s 0) as [b0|] eqn:H0; [|apply scalar_runeError].
  apply byte_at_range in H0.
  destruct ((t2 <=? b0) && (b0 <? t3)) eqn:C2.
  { destruct (cont_at s 1) as [b1|] eqn:H1; [|apply scalar_runeError].
    apply cont_at_range in H1.
    rewrite land_mask2, land_maskx, assemble2 by dlia.
    destruct (Z.ltb_spec rune1Max ((b0 mod 32) * 64 + b1 mod 64));
      [|apply scalar_runeError].
    simpl. unfold scalar, maxRune, surrogateMin, surrogateMax, rune1Max in *. dlia. }
  destruct ((t3 <=? b0) && (b0 <? t4)) eqn:C3.
  { destruct (cont_at s 1) as [b1|] eqn:H1; [|apply scalar_runeError].
    destruct (cont_at s 2) as [b2|] eqn:H2; [|apply scalar_runeError].
    apply cont_at_range in H1, H2.
    rewrite land_mask3, !land_maskx, assemble3 by dlia.
    set (r := _ + _ + _).
    destruct (Z.ltb_spec rune2Max r); simpl; [|apply scalar_runeError].
    destruct (Z.leb_spec surrogateMin r), (Z.leb_spec r surrogateMax); simpl;
      try apply scalar_runeError;
      unfold scalar, maxRune, surrogateMin, surrogateMax, rune2Max in *;
      subst r; dlia. }
  destruct ((t4 <=? b0) && (b0 <? t5)) eqn:C4; [|apply scalar_runeError].
  destruct (cont_at s 1) as [b1|] eqn:H1; [|apply scalar_runeError].
  destruct (cont_at s 2) as [b2|] eqn:H2; [|apply scalar_runeError].
  destruct (cont_at s 3) as [b3|] eqn:H3; [|apply scalar_runeError].
  apply cont_at_range in H1, H2, H3.
  rewrite land_mask4, !land_maskx, assemble4 by dlia.
  set (r := _ + _ + _ + _).
  destruct (Z.ltb_spec rune3Max r), (Z.leb_spec r maxRune); simpl;
    try apply scalar_runeError.
  unfold scalar, maxRune, surrogateMin, surrogateMax, rune3Max in *. subst r; dlia.
Qed.

Lemma decoderune_width s : (1 <= (decoderune s).2)%nat.
Proof.
  unfold decoderune.
  repeat (match goal with
          | |- context [match ?x with _ => _ end] => destruct x
          end; simpl; try lia).
Qed.

Lemma string_drop_length n s :
  String.length (string_drop n s) = (String.length s - n)%nat.
Proof.
  revert s. induction n as [|n IH]; intros [|c s]; simpl; try lia. apply IH.
Qed.

(** Enough fuel: the runes do not depend on it. *)
Lemma range_string_fuel n m s :
  (String.length s <= n)%nat → (String.length s <= m)%nat →
  range_string n s = range_string m s.
Proof.
  revert m s. induction n as [|n IH]; intros m s Hn Hm.
  - destruct s; simpl in *; [|lia]. destruct m; reflexivity.
  - destruct s as [|c rest]; [destruct m; reflexivity|].
    destruct m as [|m]; simpl in Hn, Hm; [lia|].
    cbn [range_string].
    destruct (byte_val c <? runeSelf).
    + f_equal. apply IH; lia.
    + destruct (decoderune (String c rest)) as [r w] eqn:Hd.
      f_equal.
      pose proof (decoderune_width (String c rest)) as Hw. rewrite Hd in Hw.
      simpl in Hw.
      apply IH; rewrite string_drop_length; simpl; lia.
Qed.

Lemma stringtoslicerune_nil : stringtoslicerune "" = [].
Proof. reflexivity. Qed.

(** One step of the conversion. *)
Lemma stringtoslicerune_cons c rest :
  stringtoslicerune (String c rest) =
  if byte_val c <? runeSelf then byte_val c :: stringtoslicerune rest
  else (decoderune (String c rest)).1
       :: stringtoslicerune (string_drop (decoderune (String c rest)).2
                                         (String c rest)).
Proof.
  unfold stringtoslicerune. cbn [String.length range_string].
  destruct (byte_val c <? runeSelf); [reflexivity|].
  destruct (decoderune (String c rest)) as [r w] eqn:Hd. simpl.
  f_equal. apply range_string_fuel; [|lia].
  pose proof (decoderune_width (String c rest)) as Hw. rewrite Hd in Hw.
  rewrite string_drop_length. simpl in *. lia.
Qed.

(** [[]rune(s)] holds scalar values only. *)
Lemma stringtoslicerune_scalar s : Forall scalar (stringtoslicerune s).
Proof.
  remember (String.length s) as n eqn:Hn.
  revert s Hn. induction n as [n IH] using lt_wf_ind. intros s Hn.
  destruct s as [|c rest]; [constructor|].
  rewrite stringtoslicerune_cons.
  destruct (Z.ltb_spec (byte_val c) runeSelf).
  - constructor.
    + pose proof (byte_val_range c).
      unfold scalar, runeSelf, maxRune, surrogateMin, surrogateMax in *. lia.
    + eapply IH; [|reflexivity]. simpl in Hn. lia.
  - constructor; [apply decoderune_scalar|].
    eapply IH; [|reflexivity].
    pose proof (decoderune_width (String c rest)).
    rewrite string_drop_length. simpl in *. lia.
Qed.

Lemma stringtoslicerune_nonempty s : s ≠ "" → stringtoslicerune s ≠ [].
Proof.
  destruct s as [|c rest]; [done|]. intros _.
  rewrite stringtoslicerune_cons. by destruct (byte_val c <? runeSelf).
Qed.

Lemma byte_at_0 c s : byte_at (String c s) 0 = Some (byte_val c).
Proof. reflexivity. Qed.

Lemma cont_at_S c s i : cont_at (String c s) (S i) = cont_at s i.
Proof. reflexivity. Qed.

Lemma cont_at_0 z s :
  128 <= z <= 191 → cont_at (String (byte_of z) s) 0 = Some z.
Proof.
  intros Hz. unfold cont_at. rewrite byte_at_0, byte_val_of by lia.
  unfold is_cont, locb, hicb.
  destruct (Z.leb_spec 128 z), (Z.leb_spec z 191); simpl; (done || lia).
Qed.

(** The bytes [encoderune] writes for a scalar value, by size. *)
Lemma encoderune_1 r :
  0 <= r <= rune1Max → encoderune r = String (byte_of r) "".
Proof.
  intros Hr. unfold encoderune, rune1Max in *.
  rewrite Z.mod_small by lia.
  destruct (Z.leb_spec r 127); [done | lia].
Qed.

Lemma encoderune_2 r :
  rune1Max < r <= rune2Max →
  encoderune r =
  String (byte_of (192 + r / 64)) (String (byte_of (128 + r mod 64)) "").
Proof.
  intros Hr. unfold encoderune, rune1Max, rune2Max in *.
  rewrite Z.mod_small by lia.
  destruct (Z.leb_spec r 127); [lia|].
  destruct (Z.leb_spec r 2047); [|lia].
  rewrite shiftr_6, land_maskx, lor_t2, lor_tx by dlia. done.
Qed.

Lemma encoderune_3 r :
  rune2Max < r <= rune3Max → ¬ (surrogateMin <= r <= surrogateMax) →
  encoderune r =
  String (byte_of (224 + r / 4096))
    (String (byte_of (128 + (r / 64) mod 64))
       (String (byte_of (128 + r mod 64)) "")).
Proof.
  intros Hr Hs.
  unfold encoderune, rune1Max, rune2Max, rune3Max, maxRune,
    surrogateMin, surrogateMax in *.
  rewrite Z.mod_small by lia.
  destruct (Z.leb_spec r 127); [lia|].
  destruct (Z.leb_spec r 2047); [lia|].
  destruct (Z.ltb_spec 1114111 r); [lia|].
  destruct (Z.leb_spec 55296 r), (Z.leb_spec r 57343); simpl; try lia;
    (destruct (Z.leb_spec r 65535); [|lia]);
    rewrite shiftr_12, shiftr_6, !land_maskx, lor_t3, !lor_tx by dlia; done.
Qed.

Lemma encoderune_4 r :
  rune3Max < r <= maxRune →
  encoderune r =
  String (byte_of (240 + r / 262144))
    (String (byte_of (128 + (r / 4096) mod 64))
       (String (byte_of (128 + (r / 64) mod 64))
          (String (byte_of (128 + r mod 64)) ""))).
Proof.
  intros Hr.
  unfold encoderune, rune1Max, rune2Max, rune3Max, maxRune,
    surrogateMin, surrogateMax in *.
  rewrite Z.mod_small by lia.
  destruct (Z.leb_spec r 127); [lia|].
  destruct (Z.leb_spec r 2047); [lia|].
  destruct (Z.ltb_spec 1114111 r); [lia|].
  destruct (Z.leb_spec 55296 r), (Z.leb_spec r 57343); simpl; try lia;
    (destruct (Z.leb_spec r 65535); [lia|]);
    rewrite shiftr_18, shiftr_12, shiftr_6, !land_maskx, lor_t4, !lor_tx
      by dlia; done.
Qed.

Lemma encoderune_nonempty r : encoderune r ≠ "".
Proof.
  unfold encoderune.
  repeat (match goal with
          | |- context [if ?b then _ else _] => destruct b
          end; try done).
Qed.

Lemma string_app_cons c (s t : string) : String c s +:+ t = String c (s +:+ t).
Proof. reflexivity. Qed.

Lemma string_app_nil (t : string) : "" +:+ t = t.
Proof. reflexivity. Qed.

(** Decoding what [encoderune] wrote gives the rune back. *)
Lemma stringtoslicerune_encoderune r rest :
  scalar r →
  stringtoslicerune (encoderune r +:+ rest) = r :: stringtoslicerune rest.
Proof.
  intros [Hr Hs].
  unfold maxRune, surrogateMin, surrogateMax in *.
  destruct (Z.le_gt_cases r rune1Max) as [H1|H1].
  { rewrite encoderune_1 by lia. rewrite !string_app_cons, string_app_nil.
    rewrite stringtoslicerune_cons. unfold rune1Max, runeSelf in *.
    rewrite byte_val_of by lia.
    destruct (Z.ltb_spec r 128); [done | lia]. }
  destruct (Z.le_gt_cases r rune2Max) as [H2|H2].
  { rewrite encoderune_2 by lia. rewrite !string_app_cons, string_app_nil.
    rewrite stringtoslicerune_cons.
    unfold rune1Max, rune2Max, runeSelf in *.
    rewrite byte_val_of by dlia.
    destruct (Z.ltb_spec (192 + r / 64) 128); [dlia|].
    unfold decoderune. rewrite byte_at_0, byte_val_of by dlia.
    unfold t2, t3.
    destruct (Z.leb_spec 192 (192 + r / 64)); [|dlia].
    destruct (Z.ltb_spec (192 + r / 64) 224); [|dlia].
    cbn [andb]. rewrite cont_at_S, cont_at_0 by dlia.
    rewrite land_mask2, land_maskx, assemble2 by dlia.
    replace ((192 + r / 64) mod 32 * 64 + (128 + r mod 64) mod 64) with r
      by dlia.
    unfold rune1Max. destruct (Z.ltb_spec 127 r); [done | lia]. }
  destruct (Z.le_gt_cases r rune3Max) as [H3|H3].
  { rewrite encoderune_3 by (unfold surrogateMin, surrogateMax; lia).
    rewrite !string_app_cons, string_app_nil. rewrite stringtoslicerune_cons.
    unfold rune1Max, rune2Max, rune3Max, runeSelf in *.
    rewrite byte_val_of by dlia.
    destruct (Z.ltb_spec (224 + r / 4096) 128); [dlia|].
    unfold decoderune. rewrite byte_at_0, byte_val_of by dlia.
    unfold t2, t3, t4.
    destruct (Z.leb_spec 192 (224 + r / 4096)); [|dlia].
    destruct (Z.ltb_spec (224 + r / 4096) 224); [dlia|].
    destruct (Z.leb_spec 224 (224 + r / 4096)); [|dlia].
    destruct (Z.ltb_spec (224 + r / 4096) 240); [|dlia].
    cbn [andb]. rewrite !cont_at_S, !cont_at_0 by dlia.
    rewrite land_mask3, !land_maskx, assemble3 by dlia.
    replace ((224 + r / 4096) mod 16 * 4096
             + (128 + (r / 64) mod 64) mod 64 * 64
             + (128 + r mod 64) mod 64) with r by dlia.
    unfold rune2Max, surrogateMin, surrogateMax.
    destruct (Z.ltb_spec 2047 r); [|lia].
    destruct (Z.leb_spec 55296 r), (Z.leb_spec r 57343); simpl;
      (done || lia). }
  rewrite encoderune_4 by (unfold maxRune; lia).
  rewrite !string_app_cons, string_app_nil. rewrite stringtoslicerune_cons.
  unfold rune1Max, rune2Max, rune3Max, runeSelf in *.
  rewrite byte_val_of by dlia.
  destruct (Z.ltb_spec (240 + r / 262144) 128); [dlia|].
  unfold decoderune. rewrite byte_at_0, byte_val_of by dlia.
  unfold t2, t3, t4, t5.
  destruct (Z.leb_spec 192 (240 + r / 262144)); [|dlia].
  destruct (Z.ltb_spec (240 + r / 262144) 224); [dlia|].
  destruct (Z.leb_spec 224 (240 + r / 262144)); [|dlia].
  destruct (Z.ltb_spec (240 + r / 262144) 240); [dlia|].
  destruct (Z.leb_spec 240 (240 + r / 262144)); [|dlia].
  destruct (Z.ltb_spec (240 + r / 262144) 248); [|dlia].
  cbn [andb]. rewrite !cont_at_S, !cont_at_0 by dlia.
  rewrite land_mask4, !land_maskx, assemble4 by dlia.
  replace ((240 + r / 262144) mod 8 * 262144
           + (128 + (r / 4096) mod 64) mod 64 * 4096
           + (128 + (r / 64) mod 64) mod 64 * 64
           + (128 + r mod 64) mod 64) with r by dlia.
  unfold rune3Max, maxRune.
  destruct (Z.ltb_spec 65535 r), (Z.leb_spec r 1114111); simpl;
    (done || lia).
Qed.

Lemma slicerunetostring_nonempty a : a ≠ [] → slicerunetostring a ≠ "".
Proof.
  destruct a as [|r a]; [done|]. intros _. simpl.
  pose proof (encoderune_nonempty r).
  destruct (encoderune r); [done|]. by rewrite string_app_cons.
Qed.

Lemma string_app_assoc (a b c : string) : (a +:+ b) +:+ c = a +:+ (b +:+ c).
Proof.
  induction a as [|x a IH]; [done|].
  by rewrite !string_app_cons, IH.
Qed.

(** [[]rune(string(a)) = a] for scalar values. *)
Lemma stringtoslicerune_slicerunetostring a :
  Forall scalar a → stringtoslicerune (slicerunetostring a) = a.
Proof.
  induction 1 as [|r a Hr _ IH]; [done|].
  simpl. rewrite stringtoslicerune_encoderune by done. by rewrite IH.
Qed.

(** [string([]rune(s)) = s] for well-formed [s]. *)
Lemma slicerunetostring_stringtoslicerune s :
  well_formed s → slicerunetostring (stringtoslicerune s) = s.
Proof.
  intros (rs & Hrs & ->). by rewrite stringtoslicerune_slicerunetostring.
Qed.

(** ** CommonPrefix *)

Section scan.
Implicit Types P R q : list rune.

Lemma prefix_take_le q P n :
  q `prefix_of` P → (length q <= n)%nat → q `prefix_of` take n P.
Proof.
  intros [k ->] Hn. rewrite take_app_ge by done. by apply prefix_app_r.
Qed.

Lemma CommonPrefix_scan_meet n : ∀ i P R,
  (i + n = length P)%nat → (length P <= length R)%nat →
  take i P = take i R →
  ∃ m, CommonPrefix_scan P R i n = Some m ∧ meet m P R.
Proof.
  induction n as [|n IH]; intros i P R Hlen Hle Htake.
  - exists P. split; [done|].
    assert (i = length P) as -> by lia.
    rewrite firstn_all in Htake.
    repeat split; [done | rewrite Htake; apply prefix_take | done].
  - cbn [CommonPrefix_scan].
    destruct (lookup_lt_is_Some_2 P i) as [p Hp]; [lia|].
    destruct (lookup_lt_is_Some_2 R i) as [r Hr]; [lia|].
    rewrite Hp, Hr. simpl.
    case_bool_decide as Hne.
    + exists (take i P). split; [done|].
      repeat split; [apply prefix_take | rewrite Htake; apply prefix_take |].
      intros q HqP HqR. apply prefix_take_le; [done|].
      destruct (decide (length q <= i)%nat) as [|Hgt]; [done|].
      exfalso. apply Hne.
      assert (q !! i = Some p) as Hq1.
      { rewrite (prefix_lookup_lt q P) by (done || lia). done. }
      assert (q !! i = Some r) as Hq2.
      { rewrite (prefix_lookup_lt q R) by (done || lia). done. }
      congruence.
    + assert (p = r) as <- by (destruct (decide (p = r)); done).
      apply IH; [lia | done |].
      rewrite (take_S_r P i p), (take_S_r R i p) by done. by rewrite Htake.
Qed.

Lemma CommonPrefix_body_meet P str :
  ∃ m, CommonPrefix_body P str = Some m
       ∧ meet m P (stringtoslicerune str).
Proof.
  unfold CommonPrefix_body. set (R := stringtoslicerune str).
  case_bool_decide as Hlt.
  - destruct (CommonPrefix_scan_meet (length (take (length R) P)) 0
                (take (length R) P) R) as (m & Hm & H1 & H2 & H3).
    + done.
    + rewrite length_take. lia.
    + done.
    + exists m. split; [done|]. repeat split; [|done|].
      * transitivity (take (length R) P); [done | apply prefix_take].
      * intros q HqP HqR. apply H3; [|done].
        apply prefix_take_le; [done|]. by apply prefix_length.
  - destruct (CommonPrefix_scan_meet (length P) 0 P R)
      as (m & Hm & Hmeet); [done | lia | done |].
    by exists m.
Qed.

(** The outer loop: the result is an initial sequence of the starting
    prefix and of every string, and the longest such. *)
Lemma CommonPrefix_loop_meet strs : ∀ P,
  ∃ m, CommonPrefix_loop P strs = Some m
       ∧ m `prefix_of` P
       ∧ common_prefix m (stringtoslicerune <$> strs)
       ∧ ∀ q, q `prefix_of` P
              → common_prefix q (stringtoslicerune <$> strs)
              → q `prefix_of` m.
Proof.
  induction strs as [|str strs IH]; intros P.
  - exists P. repeat split; [done | constructor | done].
  - cbn [CommonPrefix_loop].
    destruct (CommonPrefix_body_meet P str) as (m1 & -> & H1 & H2 & H3).
    simpl.
    destruct (IH m1) as (m & Hm & Hm1 & Hall & Hmax).
    exists m. split; [done|]. repeat split.
    + by transitivity m1.
    + constructor; [by transitivity m1 | done].
    + intros q HqP Hq. inversion Hq as [|? ? Hq1 Hq2]; subst.
      apply Hmax; [|done]. by apply H3.
Qed.
End scan.

(** [CommonPrefix] never panics: on a non-empty list it finds the longest
    common prefix of the rune sequences and returns ["None"] when it is
    empty, its encoding otherwise. *)
Lemma CommonPrefix_longest str0 strs :
  ∃ p, longest_common_prefix p (stringtoslicerune <$> (str0 :: strs))
       ∧ CommonPrefix (str0 :: strs)
         = Some (if bool_decide (p = []) then "None"
                 else slicerunetostring p).
Proof.
  unfold CommonPrefix.
  destruct (CommonPrefix_loop_meet (str0 :: strs) (stringtoslicerune str0))
    as (p & -> & Hp0 & Hall & Hmax).
  exists p. split.
  - split; [done|]. intros q Hq. apply Hmax; [|done].
    by inversion Hq.
  - simpl. destruct p; done.
Qed.

Lemma longest_common_prefix_unique p q ls :
  longest_common_prefix p ls → longest_common_prefix q ls → p = q.
Proof.
  intros [Hp Hpmax] [Hq Hqmax].
  apply (anti_symm prefix); auto.
Qed.

Lemma longest_common_prefix_identical s (strs : list string) :
  strs ≠ [] → Forall (eq s) strs →
  longest_common_prefix (stringtoslicerune s) (stringtoslicerune <$> strs).
Proof.
  intros Hne Hall. split.
  - unfold common_prefix. rewrite Forall_fmap.
    eapply Forall_impl; [exact Hall|]. intros ? <-. simpl. reflexivity.
  - intros q Hq. destruct strs as [|s' strs]; [done|].
    inversion Hall; subst. by inversion Hq.
Qed.

Example CommonPrefix_chiyoda :
  CommonPrefix ["東京都千代田区丸の内"; "東京都千代田区大手町"]
  = Some "東京都千代田区".
Proof. reflexivity. Qed.

Example CommonPrefix_no_shared_start :
  CommonPrefix ["東京都港区"; "神奈川県横浜市"] = Some "None".
Proof. reflexivity. Qed.

(** C3: on the empty list [CommonPrefix] returns the sentinel
    ["Error: func commonPrefix"], verbatim. *)
Theorem CommonPrefix_empty :
  CommonPrefix [] = Some "Error: func commonPrefix".
Proof. reflexivity. Qed.

(** C1, as the code has it: on a non-empty list [CommonPrefix] returns,
    without panicking, the longest initial sequence [p] of code points
    shared by every string (each string read as [[]rune] reads it);
    ["None"] when [p] is empty, which is the case whenever the strings do
    not all start with one and the same code point; otherwise the string
    of [p], whose code points are [p] again.  A list of identical strings
    gives that string unchanged when the string is not empty and is
    well-formed UTF-8. *)
Theorem CommonPrefix_longest_common_prefix (strs : list string) :
  strs ≠ [] →
  ∃ p,
    longest_common_prefix p (stringtoslicerune <$> strs)
    ∧ CommonPrefix strs
      = Some (if bool_decide (p = []) then "None" else slicerunetostring p)
    ∧ stringtoslicerune (slicerunetostring p) = p
    ∧ ((¬ ∃ c, Forall (λ s, head (stringtoslicerune s) = Some c) strs) →
       CommonPrefix strs = Some "None")
    ∧ (∀ s, Forall (eq s) strs → s ≠ "" → well_formed s →
       CommonPrefix strs = Some s).
Proof.
  intros Hne. destruct strs as [|str0 strs]; [done|].
  destruct (CommonPrefix_longest str0 strs) as (p & Hp & Hres).
  exists p. split; [done|]. split; [done|].
  assert (Forall scalar p) as Hscalar.
  { destruct Hp as [Hp _]. inversion Hp as [|? ? [k Hk] _]; subst.
    pose proof (stringtoslicerune_scalar str0) as Hs.
    rewrite Hk in Hs. by apply Forall_app in Hs as [? _]. }
  split; [by apply stringtoslicerune_slicerunetostring|]. split.
  - intros Hhead. rewrite Hres. destruct p as [|c p]; [done|].
    exfalso. apply Hhead. exists c.
    destruct Hp as [Hp _]. unfold common_prefix in Hp.
    rewrite Forall_fmap in Hp. eapply Forall_impl; [exact Hp|].
    intros s [k ->]. done.
  - intros s Hall Hs Hwf. rewrite Hres.
    pose proof (longest_common_prefix_identical s (str0 :: strs) Hne Hall)
      as Hid.
    rewrite (longest_common_prefix_unique _ _ _ Hp Hid).
    rewrite bool_decide_eq_false_2 by by apply stringtoslicerune_nonempty.
    by rewrite slicerunetostring_stringtoslicerune.
Qed.

(** Two addresses of Chiyoda, Tokyo, share the first seven code points. *)
Lemma CommonPrefix_longest_common_prefix_witness :
  (∃ p, longest_common_prefix p
          (stringtoslicerune <$> ["東京都千代田区丸の内"; "東京都千代田区大手町"])
        ∧ CommonPrefix ["東京都千代田区丸の内"; "東京都千代田区大手町"]
          = Some (if bool_decide (p = []) then "None"
                  else slicerunetostring p))
  ∧ CommonPrefix ["東京都"; "東京都"] = Some "東京都".
Proof.
  split.
  - destruct (CommonPrefix_longest_common_prefix
                ["東京都千代田区丸の内"; "東京都千代田区大手町"])
      as (p & Hp & Hres & _); [done|].
    exists p. by split.
  - destruct (CommonPrefix_longest_common_prefix ["東京都"; "東京都"])
      as (p & _ & _ & _ & _ & Hid); [done|].
    apply Hid.
    + repeat constructor.
    + done.
    + exists [26481; 20140; 37117]. split; [|reflexivity].
      repeat constructor; unfold maxRune, surrogateMin, surrogateMax; lia.
Defined.

(** C1, as stated, fails for a list of identical strings: the empty string
    comes back as ["None"], and the ill-formed one-byte string [0xFF] comes
    back as the three bytes of U+FFFD. *)
Lemma CommonPrefix_identical_counterexample :
  CommonPrefix [""; ""] = Some "None"
  ∧ CommonPrefix [""; ""] ≠ Some ""
  ∧ CommonPrefix [String (byte_of 0xFF) ""]
    = Some (String (byte_of 0xEF) (String (byte_of 0xBF)
              (String (byte_of 0xBD) "")))
  ∧ CommonPrefix [String (byte_of 0xFF) ""] ≠ Some (String (byte_of 0xFF) "").
Proof. repeat split; (reflexivity || discriminate). Qed.

(** C9: [CommonPrefix] always returns, and never the empty string: the
    result is the sentinel, ["None"], or the encoding of a non-empty
    sequence of code points. *)
Theorem CommonPrefix_never_empty (strs : list string) :
  ∃ s, CommonPrefix strs = Some s
       ∧ s ≠ ""
       ∧ (s = "Error: func commonPrefix"
          ∨ s = "None"
          ∨ ∃ p, p ≠ [] ∧ Forall scalar p ∧ s = slicerunetostring p
                 ∧ stringtoslicerune s = p).
Proof.
  destruct strs as [|str0 strs].
  { exists "Error: func commonPrefix". split; [done|]. split; [done|]. by left. }
  destruct (CommonPrefix_longest str0 strs) as (p & [Hp _] & ->).
  destruct p as [|c p].
  { exists "None". split; [done|]. split; [done|]. right. by left. }
  exists (slicerunetostring (c :: p)). split; [done|].
  split; [by apply slicerunetostring_nonempty|].
  assert (Forall scalar (c :: p)) as Hscalar.
  { inversion Hp as [|? ? [k Hk] _]; subst.
    pose proof (stringtoslicerune_scalar str0) as Hs.
    rewrite Hk in Hs. by apply Forall_app in Hs as [? _]. }
  right. right. exists (c :: p). repeat split; try done.
  by apply stringtoslicerune_slicerunetostring.
Qed.

(** ** The loops of getAddress *)

Section loops.
Variable ParseFloat : string → float * option NumError.
Variable Distance : Coord → Coord → float * float.

(** The first loop never indexes out of range, and fills [addresses]
    with the address of each location in order. *)
Lemma shortest_loop_addresses locations : ∀ i addresses shortest,
  (i + length locations = length addresses)%nat →
  ∃ shortest',
    shortest_loop i locations addresses shortest
    = Some ((take i addresses ++ (address_of <$> locations))%list, shortest').
Proof.
  induction locations as [|location rest IH]; intros i addresses shortest Hlen.
  - exists shortest. simpl in *. rewrite app_nil_r.
    rewrite firstn_all2 by lia. done.
  - cbn [shortest_loop]. simpl in Hlen.
    rewrite bool_decide_eq_true_2 by lia.
    rewrite list_lookup_insert_eq by lia. simpl.
    edestruct (IH (S i) (<[i:=address_of location]> addresses))
      as [shortest' Hs]; [rewrite length_insert; lia|].
    rewrite Hs. exists shortest'. do 2 f_equal.
    rewrite (take_S_r _ i (address_of location))
      by (apply list_lookup_insert_eq; lia).
    rewrite take_insert_ge by lia.
    by rewrite <- app_assoc.
Qed.

Lemma addresses_loop_addresses locations : ∀ i addresses,
  (i + length locations = length addresses)%nat →
  addresses_loop i locations addresses
  = Some (take i addresses ++ (address_of <$> locations))%list.
Proof.
  induction locations as [|location rest IH]; intros i addresses Hlen.
  - simpl in *. rewrite app_nil_r, firstn_all2 by lia. done.
  - cbn [addresses_loop]. simpl in Hlen.
    rewrite bool_decide_eq_true_2 by lia.
    rewrite IH by (rewrite length_insert; lia).
    f_equal.
    rewrite (take_S_r _ i (address_of location))
      by (apply list_lookup_insert_eq; lia).
    rewrite take_insert_ge by lia.
    by rewrite <- app_assoc.
Qed.

(** The second loop is a left fold. *)
Lemma distance_loop_foldl locations : ∀ maxDistance,
  distance_loop ParseFloat Distance locations maxDistance
  = foldl (λ maxDistance location,
             let km := (Distance {| Lat := tokyoY; Lon := tokyoX |}
                          {| Lat := (ParseFloat (Y location)).1;
                             Lon := (ParseFloat (X location)).1 |}).2 in
             if (maxDistance <? km)%float then km else maxDistance)
          maxDistance locations.
Proof.
  induction locations as [|location rest IH]; intros m; [done|].
  simpl. apply IH.
Qed.

Lemma lenient_coordinate_eq field :
  (∀ s, (ParseFloat s).2 = Some ErrSyntax → (ParseFloat s).1 = 0%float) →
  lenient_coordinate ParseFloat field = (ParseFloat field).1.
Proof.
  intros H. unfold lenient_coordinate. specialize (H field).
  destruct (ParseFloat field) as [v [[]|]]; simpl in *; auto.
  symmetry. by apply H.
Qed.

Lemma distance_loop_lenient locations :
  (∀ s, (ParseFloat s).2 = Some ErrSyntax → (ParseFloat s).1 = 0%float) →
  distance_loop ParseFloat Distance locations 0%float
  = lenient_max_distance ParseFloat Distance locations.
Proof.
  intros H. rewrite distance_loop_foldl. unfold lenient_max_distance.
  generalize 0%float. induction locations as [|l rest IH]; intros m; [done|].
  simpl. rewrite !lenient_coordinate_eq by done. apply IH.
Qed.
End loops.

Lemma CommonPrefix_never_panics strs : is_Some (CommonPrefix strs).
Proof.
  destruct strs as [|str0 strs]; [by eexists|].
  destruct (CommonPrefix_longest str0 strs) as (p & _ & ->). by eexists.
Qed.

(** ** getAddress *)

Section getAddress_paths.
Variable ParseFloat : string → float * option NumError.
Variable Distance : Coord → Coord → float * float.
Variable Unmarshal : string → string + APIResponse.


Lemma getAddress_insert_error env postalCode w e :
  exec_err env = Some e →
  getAddress ParseFloat Distance Unmarshal env postalCode w
  = (after_insert env postalCode w,
     Some {| status := StatusInternalServerError; body := error_body e |}).
Proof. intros H. unfold getAddress, db_Exec_insert. by rewrite H. Qed.

Lemma getAddress_geocoding_error env postalCode w e :
  exec_err env = None →
  geocoding_fails Unmarshal env postalCode e →
  getAddress ParseFloat Distance Unmarshal env postalCode w
  = (after_geocoding env postalCode w,
     Some {| status := StatusInternalServerError; body := error_body e |}).
Proof.
  intros H Hfail. unfold getAddress, db_Exec_insert, geocoding_fails in *.
  rewrite H. simpl.
  destruct (http_Get env (geocoding_url postalCode)) as [e'|[e'|body]].
  - by subst.
  - by subst.
  - by rewrite Hfail.
Qed.

Lemma getAddress_ok env postalCode w body apiResponse :
  exec_err env = None →
  http_Get env (geocoding_url postalCode) = GetBody (inr body) →
  Unmarshal body = inr apiResponse →
  ∃ address,
    CommonPrefix (address_of <$> Response_Location apiResponse)
    = Some address
    ∧ getAddress ParseFloat Distance Unmarshal env postalCode w
      = (after_geocoding env postalCode w,
         Some {| status := StatusOK;
                 body := marshal_AppResponse
                   {| PostalCode := postalCode;
                      HitCount :=
                        Z.of_nat (length (Response_Location apiResponse));
                      Address := address;
                      TokyoStaDistance :=
                        (Round (distance_loop ParseFloat Distance
                                  (Response_Location apiResponse) 0 * 10)
                         / 10)%float |} |}).
Proof.
  intros H Hget Hjson.
  destruct (CommonPrefix_never_panics
              (address_of <$> Response_Location apiResponse))
    as [address Haddress].
  exists address. split; [done|].
  unfold getAddress, db_Exec_insert. rewrite H. simpl. rewrite Hget, Hjson.
  destruct (shortest_loop_addresses (Response_Location apiResponse) 0
              (replicate (length (Response_Location apiResponse)) "") "")
    as [shortest ->]; [by rewrite length_replicate|].
  simpl. rewrite Haddress. done.
Qed.
End getAddress_paths.

(** ** The order of binary64 *)

Lemma SFltb_irrefl a : SFltb a a = false.
Proof.
  unfold SFltb. destruct a as [[]| []| |[] m e]; simpl; try done;
    rewrite Z.compare_refl, Pos.compare_cont_refl; done.
Qed.

Lemma SFltb_trans a b c :
  SFltb a b = true → SFltb b c = true → SFltb a c = true.
Proof.
  unfold SFltb.
  destruct a as [[]|[]| |[] ma ea], b as [[]|[]| |[] mb eb],
    c as [[]|[]| |[] mc ec]; simpl; try done.
  - destruct (Z.compare_spec ea eb), (Z.compare_spec eb ec),
      (Z.compare_spec ea ec); try done; try lia; subst.
    rewrite !Pos.compare_cont_spec; simpl.
    destruct (Pos.compare_spec ma mb), (Pos.compare_spec mb mc),
      (Pos.compare_spec ma mc); simpl; try done; lia.
  - destruct (Z.compare_spec ea eb), (Z.compare_spec eb ec),
      (Z.compare_spec ea ec); try done; try lia; subst.
    rewrite !Pos.compare_cont_spec; simpl.
    destruct (Pos.compare_spec ma mb), (Pos.compare_spec mb mc),
      (Pos.compare_spec ma mc); simpl; try done; lia.
Qed.

Lemma ltb_irrefl (x : float) : (x <? x)%float = false.
Proof. rewrite FloatAxioms.ltb_spec. apply SFltb_irrefl. Qed.

Lemma ltb_trans (x y z : float) :
  (x <? y)%float = true → (y <? z)%float = true → (x <? z)%float = true.
Proof. rewrite !FloatAxioms.ltb_spec. apply SFltb_trans. Qed.

(** When [x] is not above [m], it is not above anything above [m]. *)
Lemma ltb_false_mono (m km x : float) :
  (m <? x)%float = false → (m <? km)%float = true → (km <? x)%float = false.
Proof.
  intros H1 H2. destruct (km <? x)%float eqn:H3; [|done].
  by rewrite (ltb_trans m km x) in H1.
Qed.

Lemma ltb_not_nan (x y : float) :
  (x <? y)%float = true → (y =? y)%float = true.
Proof.
  rewrite FloatAxioms.ltb_spec, FloatAxioms.eqb_spec. unfold SFltb, SFeqb.
  destruct (Prim2SF x) as [[]|[]| |[] mx ex],
    (Prim2SF y) as [[]|[]| |[] my ey]; simpl; try done;
    intros _; by rewrite Z.compare_refl, Pos.compare_cont_refl.
Qed.

Section max.
Variable ParseFloat : string → float * option NumError.
Variable Distance : Coord → Coord → float * float.

Lemma distance_loop_not_below locations : ∀ maxDistance x,
  (maxDistance <? x)%float = false →
  (distance_loop ParseFloat Distance locations maxDistance <? x)%float = false.
Proof.
  induction locations as [|location rest IH]; intros m x Hx; [done|].
  cbn [distance_loop]. apply IH.
  fold (candidate_km ParseFloat Distance location).
  destruct (m <? candidate_km ParseFloat Distance location)%float eqn:Hlt;
    [|done].
  by apply (ltb_false_mono m).
Qed.

(** No candidate is farther than the result of the second loop, which is
    the starting value or the distance of a candidate. *)
Lemma distance_loop_max locations : ∀ maxDistance,
  let result := distance_loop ParseFloat Distance locations maxDistance in
  Forall (λ location, (result <? candidate_km ParseFloat Distance location)%float
                      = false) locations
  ∧ (result = maxDistance
     ∨ Exists (λ location,
                 result = candidate_km ParseFloat Distance location) locations).
Proof.
  induction locations as [|location rest IH]; intros m.
  - split; [constructor | by left].
  - cbn [distance_loop]. fold (candidate_km ParseFloat Distance location).
    set (km := candidate_km ParseFloat Distance location).
    destruct (IH (if (m <? km)%float then km else m)) as [Hall Hin].
    split.
    + constructor; [|done]. apply distance_loop_not_below.
      destruct (m <? km)%float eqn:Hlt; [apply ltb_irrefl | done].
    + destruct Hin as [->|Hin]; [|right; by constructor 2].
      destruct (m <? km)%float; [right; by constructor | by left].
Qed.
(** The maximum is never NaN: a NaN distance loses every comparison. *)
Lemma distance_loop_not_nan locations : ∀ maxDistance,
  (maxDistance =? maxDistance)%float = true →
  let result := distance_loop ParseFloat Distance locations maxDistance in
  (result =? result)%float = true.
Proof.
  induction locations as [|location rest IH]; intros m Hm; [done|].
  cbn [distance_loop]. apply IH.
  fold (candidate_km ParseFloat Distance location).
  destruct (m <? candidate_km ParseFloat Distance location)%float eqn:Hlt;
    [|done].
  by apply (ltb_not_nan m).
Qed.
End max.

(** ** math.Round *)

Lemma digits2_pos_bound (m : positive) :
  2 ^ (Z.pos (digits2_pos m) - 1) <= Z.pos m < 2 ^ Z.pos (digits2_pos m).
Proof.
  induction m as [m IH|m IH|]; cbn [digits2_pos].
  - rewrite Pos2Z.inj_succ, (Pos2Z.inj_xI m).
    replace (Z.succ (Z.pos (digits2_pos m)) - 1)
      with (Z.succ (Z.pos (digits2_pos m) - 1)) by lia.
    rewrite !Z.pow_succ_r by lia.
    generalize dependent (2 ^ (Z.pos (digits2_pos m) - 1)).
    generalize dependent (2 ^ Z.pos (digits2_pos m)). intros. lia.
  - rewrite Pos2Z.inj_succ, (Pos2Z.inj_xO m).
    replace (Z.succ (Z.pos (digits2_pos m)) - 1)
      with (Z.succ (Z.pos (digits2_pos m) - 1)) by lia.
    rewrite !Z.pow_succ_r by lia.
    generalize dependent (2 ^ (Z.pos (digits2_pos m) - 1)).
    generalize dependent (2 ^ Z.pos (digits2_pos m)). intros. lia.
  - simpl. lia.
Qed.

Lemma digits2_pos_shift (m d : positive) :
  digits2_pos (Pos.iter xO m d) = (digits2_pos m + d)%positive.
Proof.
  induction d as [|d IH] using Pos.peano_ind.
  - simpl. lia.
  - rewrite Pos.iter_succ. cbn [digits2_pos]. rewrite IH. lia.
Qed.

Lemma pos_shift_value (m d : positive) :
  Z.pos (Pos.iter xO m d) = Z.pos m * 2 ^ Z.pos d.
Proof.
  induction d as [|d IH] using Pos.peano_ind.
  - simpl. lia.
  - rewrite Pos.iter_succ, Pos2Z.inj_xO, IH, Pos2Z.inj_succ.
    rewrite Z.pow_succ_r by lia. lia.
Qed.

(** A mantissa of 53 bits at an exponent that is not above zero is kept
    as it is. *)
Lemma binary_round_aux_exact (s : bool) (m : positive) (e : Z) :
  Z.pos (digits2_pos m) = 53 → -1022 <= e <= 0 →
  binary_round_aux prec emax s (Z.pos m) e loc_Exact = S754_finite s m e.
Proof.
  intros Hd He. unfold binary_round_aux, shr_fexp, fexp, emin, prec, emax.
  cbn [Zdigits2 shr_record_of_loc]. rewrite Hd.
  replace (Z.max (53 + e - 53) (3 - 1024 - 53) - e) with 0 by lia.
  cbn [shr round_nearest_even shr_m loc_of_shr_record Zdigits2].
  rewrite Hd.
  replace (Z.max (53 + e - 53) (3 - 1024 - 53) - e) with 0 by lia.
  cbn [shr shr_m].
  destruct (Z.leb_spec e (1024 - 53)); [done | lia].
Qed.

(** The conversion of an integer below [2^53] is exact. *)
Lemma binary_normalize_exact (n : positive) :
  Z.pos n < 2 ^ 53 →
  ∃ m e, binary_normalize prec emax (Z.pos n) 0 false = S754_finite false m e
         ∧ e <= 0 ∧ Z.pos m = Z.pos n * 2 ^ (- e).
Proof.
  intros Hn. pose proof (digits2_pos_bound n) as Hb.
  assert (Z.pos (digits2_pos n) <= 53) as Hk.
  { destruct (Z.le_gt_cases (Z.pos (digits2_pos n)) 53) as [?|Hgt]; [done|].
    pose proof (Z.pow_le_mono_r 2 53 (Z.pos (digits2_pos n) - 1)). lia. }
  cbn [binary_normalize]. unfold binary_round, shl_align, fexp, emin, prec, emax.
  replace (Z.max (Z.pos (digits2_pos n) + 0 - 53) (3 - 1024 - 53) - 0)
    with (Z.pos (digits2_pos n) - 53) by lia.
  destruct (Z.pos (digits2_pos n) - 53) as [|d|d] eqn:Hd; [|lia|].
  - exists n, 0. split; [|split; [lia | simpl; lia]].
    apply binary_round_aux_exact; lia.
  - replace (Z.max (Z.pos (digits2_pos n) + 0 - 53) (3 - 1024 - 53))
      with (Z.neg d) by lia.
    exists (Pos.iter xO n d), (Z.neg d). split; [|split; [lia|]].
    + apply binary_round_aux_exact; [|lia].
      rewrite digits2_pos_shift. lia.
    + rewrite pos_shift_value. done.
Qed.

(** The mantissa of a binary64 number has at most 53 bits. *)
Lemma Prim2SF_mantissa (x : float) s m e :
  Prim2SF x = S754_finite s m e → Z.pos m < 2 ^ 53.
Proof.
  intros Hx. pose proof (Prim2SF_valid x) as Hv. rewrite Hx in Hv.
  cbn [valid_binary] in Hv. unfold bounded, canonical_mantissa in Hv.
  apply andb_prop in Hv as [Hc _]. apply Z.eqb_eq in Hc.
  unfold fexp, emin, prec, emax in Hc.
  pose proof (digits2_pos_bound m) as [_ Hm].
  pose proof (Z.pow_le_mono_r 2 (Z.pos (digits2_pos m)) 53).
  lia.
Qed.

(** The float of an integer below [2^53] is that integer. *)
Lemma of_uint63_exact (n : Z) :
  0 <= n < 2 ^ 53 →
  SF_integer (Prim2SF (of_uint63 (Uint63.of_Z n))) false n.
Proof.
  intros Hn. rewrite of_uint63_spec, Uint63.of_Z_spec.
  rewrite Z.mod_small
    by (split; [lia|]; apply Z.lt_trans with (2 ^ 53); [lia | done]).
  destruct n as [|n|n]; [done| |lia].
  destruct (binary_normalize_exact n) as (m & e & -> & He & Hm); [lia|].
  cbn [SF_integer]. split; [done|].
  rewrite Z.max_r, Z.max_l by lia. rewrite Hm. simpl (2 ^ 0). lia.
Qed.

Lemma SF_integer_opp (f : spec_float) (n : Z) :
  SF_integer f false n → SF_integer (SFopp f) true n.
Proof. destruct f as [s|s| |s m e]; simpl; try done; by intros [-> ?]. Qed.

(** [math.Round] rounds to the nearest integer, halves away from zero. *)
Lemma Round_half_away_from_zero (x : float) :
  rounds_half_away_from_zero (Prim2SF x) (Prim2SF (Round x)).
Proof.
  unfold Round. destruct (Prim2SF x) as [s|s| |s m e] eqn:Hx; try done.
  cbn [rounds_half_away_from_zero].
  destruct (Z.leb_spec 0 e) as [He|He].
  { exists (Z.pos m * 2 ^ e). rewrite Hx. cbn [SF_integer].
    rewrite Z.max_l, Z.max_r by lia. simpl (2 ^ 0).
    split; [split; [done | lia] | lia]. }
  pose proof (Prim2SF_mantissa x s m e Hx) as Hm.
  rewrite Z.max_l, Z.max_r by lia. simpl (2 ^ 0). rewrite Z.mul_1_r.
  assert (2 <= 2 ^ (- e)) as Hd.
  { change 2 with (2 ^ 1) at 1. apply Z.pow_le_mono_r; lia. }
  set (d := 2 ^ (- e)) in *.
  pose proof (Z.div_mod (Z.pos m) d ltac:(lia)) as Hdiv.
  pose proof (Z.mod_pos_bound (Z.pos m) d ltac:(lia)) as Hr.
  set (q := Z.pos m / d) in *. set (r := Z.pos m mod d) in *.
  assert (0 <= q) as Hq by (apply Z.div_pos; lia).
  assert (2 * q <= Z.pos m) as Hq2 by nia.
  set (n := if d <=? 2 * r then q + 1 else q).
  assert (0 <= n < 2 ^ 53) as Hn.
  { subst n. destruct (d <=? 2 * r); lia. }
  exists n. split.
  - pose proof (of_uint63_exact n Hn) as Hf.
    destruct s; [|done].
    rewrite opp_spec. by apply SF_integer_opp.
  - subst n. destruct (Z.leb_spec d (2 * r)); nia.
Qed.

(** ** Properties of getAddress *)

Section getAddress_properties.
Variable ParseFloat : string → float * option NumError.
Variable Distance : Coord → Coord → float * float.
Variable Unmarshal : string → string + APIResponse.

(** C5: when the access-log insert fails with [msg], the handler answers
    500 with [{"error": msg}] and stops: the insert is the only call it
    issued (no geocoding request), the table is unchanged, and the
    response is not a 200. *)
Theorem getAddress_insert_failure env postalCode w msg :
  exec_err env = Some msg →
  getAddress ParseFloat Distance Unmarshal env postalCode w
  = ({| access_logs := access_logs w;
        trace := trace w ++ [EvExecInsert postalCode (time_Now env)] |},
     Some {| status := 500; body := JObject [("error", JString msg)] |})
  ∧ (∀ url, EvHTTPGet url
            ∈ trace (getAddress ParseFloat Distance Unmarshal
                       env postalCode w).1 →
            EvHTTPGet url ∈ trace w)
  ∧ ∀ r, (getAddress ParseFloat Distance Unmarshal env postalCode w).2
         = Some r → status r ≠ StatusOK.
Proof.
  intros H. rewrite (getAddress_insert_error _ _ _ _ _ _ msg H).
  split; [done|]. split.
  - intros url. simpl. rewrite elem_of_app, list_elem_of_singleton.
    by intros [?|?].
  - simpl. by intros r [= <-].
Qed.

(** C4: in every execution the insert is issued first and the geocoding
    request, if any, after it; once the insert has succeeded the new row is
    the last row of the table when the handler returns, in particular when
    the geocoding call fails (network, body-read or JSON-parse error), which
    is answered with a 500. *)
Theorem getAddress_log_before_geocoding env postalCode w :
  let result := getAddress ParseFloat Distance Unmarshal env postalCode w in
  (∃ tail,
     trace result.1
     = trace w ++ EvExecInsert postalCode (time_Now env) :: tail
     ∧ (tail = [] ∨ tail = [EvHTTPGet (geocoding_url postalCode)]))
  ∧ (exec_err env = None →
     access_logs result.1
     = access_logs w ++ [(postalCode, time_Now env)])
  ∧ (∀ e, exec_err env = None →
          geocoding_fails Unmarshal env postalCode e →
          result.2 = Some {| status := 500;
                             body := JObject [("error", JString e)] |}
          ∧ access_logs result.1
            = access_logs w ++ [(postalCode, time_Now env)]
          ∧ trace result.1
            = trace w ++ [EvExecInsert postalCode (time_Now env);
                          EvHTTPGet (geocoding_url postalCode)]).
Proof.
  intros result.
  assert (exec_err env = None →
          result.1 = after_geocoding env postalCode w) as Hok.
  { intros H. subst result.
    destruct (http_Get env (geocoding_url postalCode))
      as [e|[e|body]] eqn:Hget.
    - rewrite (getAddress_geocoding_error _ _ _ _ _ _ e H); [done|].
      unfold geocoding_fails. by rewrite Hget.
    - rewrite (getAddress_geocoding_error _ _ _ _ _ _ e H); [done|].
      unfold geocoding_fails. by rewrite Hget.
    - destruct (Unmarshal body) as [e|apiResponse] eqn:Hjson.
      + rewrite (getAddress_geocoding_error _ _ _ _ _ _ e H); [done|].
        unfold geocoding_fails. by rewrite Hget.
      + destruct (getAddress_ok ParseFloat Distance Unmarshal env postalCode
                    w body apiResponse H Hget Hjson) as (address & _ & ->).
        done. }
  split; [|split].
  - destruct (exec_err env) as [e|] eqn:H.
    + exists []. subst result.
      rewrite (getAddress_insert_error _ _ _ _ _ _ e H). split; [done|].
      by left.
    + exists [EvHTTPGet (geocoding_url postalCode)].
      rewrite Hok by done. simpl. rewrite <- app_assoc. split; [done|].
      by right.
  - intros H. by rewrite Hok.
  - intros e H Hfail. rewrite Hok by done. subst result.
    rewrite (getAddress_geocoding_error _ _ _ _ _ _ e H Hfail).
    simpl. by rewrite <- app_assoc.
Qed.

(** C6: a coordinate string that is not a number never fails the request.
    The handler does not look at the error of [strconv.ParseFloat]: once
    the insert and the geocoding call have succeeded it answers 200 for
    every candidate list, with the distance of the second loop; and since
    [strconv.ParseFloat] gives zero together with a syntax error, that
    distance is the one computed with every such field taken as zero. *)
Theorem getAddress_malformed_coordinates env postalCode w body apiResponse :
  exec_err env = None →
  http_Get env (geocoding_url postalCode) = GetBody (inr body) →
  Unmarshal body = inr apiResponse →
  (∃ address,
     (getAddress ParseFloat Distance Unmarshal env postalCode w).2
     = Some {| status := 200;
               body := marshal_AppResponse
                 {| PostalCode := postalCode;
                    HitCount :=
                      Z.of_nat (length (Response_Location apiResponse));
                    Address := address;
                    TokyoStaDistance :=
                      (Round (distance_loop ParseFloat Distance
                                (Response_Location apiResponse) 0 * 10)
                       / 10)%float |} |})
  ∧ ((∀ s, (ParseFloat s).2 = Some ErrSyntax → (ParseFloat s).1 = 0%float) →
     distance_loop ParseFloat Distance (Response_Location apiResponse) 0
     = lenient_max_distance ParseFloat Distance
         (Response_Location apiResponse)).
Proof.
  intros H Hget Hjson. split.
  - destruct (getAddress_ok ParseFloat Distance Unmarshal env postalCode
                w body apiResponse H Hget Hjson) as (address & _ & ->).
    by exists address.
  - apply distance_loop_lenient.
Qed.

(** C7: the [tokyo_sta_distance] of a 200 response is
    [math.Round(maxDistance*10) / 10], where [maxDistance] is the maximum
    of the candidate distances, starting from 0.0 (no candidate is above
    it, and it is 0.0 or the distance of a candidate), and [math.Round]
    rounds every binary64 number to the nearest integer, halves away from
    zero: 12.34 gives 12.3, 12.36 gives 12.4, the exact halves 0.25 and
    0.75 give 0.3 and 0.8, and an empty candidate list, whose maximum
    stays 0.0, gives 0.0. *)
Theorem getAddress_tokyo_sta_distance env postalCode w body apiResponse :
  exec_err env = None →
  http_Get env (geocoding_url postalCode) = GetBody (inr body) →
  Unmarshal body = inr apiResponse →
  let maxDistance :=
    distance_loop ParseFloat Distance (Response_Location apiResponse) 0 in
  (∃ address,
     (getAddress ParseFloat Distance Unmarshal env postalCode w).2
     = Some {| status := 200;
               body := JObject
                 [("postal_code", JString postalCode);
                  ("hit_count",
                   JInt (Z.of_nat (length (Response_Location apiResponse))));
                  ("address", JString address);
                  ("tokyo_sta_distance",
                   JFloat (Round (maxDistance * 10) / 10)%float)] |})
  ∧ Forall (λ location,
              (maxDistance <? candidate_km ParseFloat Distance location)%float
              = false) (Response_Location apiResponse)
  ∧ (maxDistance = 0%float
     ∨ Exists (λ location,
                 maxDistance = candidate_km ParseFloat Distance location)
              (Response_Location apiResponse))
  ∧ (Response_Location apiResponse = [] → maxDistance = 0%float)
  ∧ (Round (12.34 * 10) / 10 = 12.3)%float
  ∧ (Round (12.36 * 10) / 10 = 12.4)%float
  ∧ (Round (0 * 10) / 10 = 0)%float
  ∧ (Round (0.25 * 10) / 10 = 0.3)%float
  ∧ (Round (0.75 * 10) / 10 = 0.8)%float
  ∧ (Round 0.5 = 1 ∧ Round 1.5 = 2 ∧ Round 2.5 = 3
     ∧ Round (-0.5) = -1 ∧ Round (-2.5) = -3
     ∧ Round 2.4 = 2 ∧ Round 2.6 = 3)%float
  ∧ ∀ x : float, rounds_half_away_from_zero (Prim2SF x) (Prim2SF (Round x)).
Proof.
  intros H Hget Hjson maxDistance.
  split; [|split; [|split; [|split]]].
  - destruct (getAddress_ok ParseFloat Distance Unmarshal env postalCode
                w body apiResponse H Hget Hjson) as (address & _ & ->).
    by exists address.
  - apply distance_loop_max.
  - apply distance_loop_max.
  - subst maxDistance. by intros ->.
  - do 6 (split; [repeat split; reflexivity|]).
    apply Round_half_away_from_zero.
Qed.

(** C10: the statements on [shortestAddress] do not show in any result of
    the handler: with them removed the world and the response are the same,
    and the list handed to [CommonPrefix] is the list of
    prefecture+city+town strings whatever [shortestAddress] ends as. *)
Theorem getAddress_shortestAddress_dead env postalCode w :
  getAddress ParseFloat Distance Unmarshal env postalCode w
  = getAddress_without_shortestAddress ParseFloat Distance Unmarshal
      env postalCode w
  ∧ ∀ locations, ∃ shortestAddress,
      shortest_loop 0 locations (replicate (length locations) "") ""
      = Some (address_of <$> locations, shortestAddress).
Proof.
  split.
  - unfold getAddress, getAddress_without_shortestAddress.
    destruct (db_Exec_insert _ _ _ _) as [w1 [e|]]; [done|].
    destruct (http_Get env _) as [e|[e|body]]; [done..|].
    destruct (Unmarshal body) as [e|apiResponse]; [done|].
    destruct (shortest_loop_addresses (Response_Location apiResponse) 0
                (replicate (length (Response_Location apiResponse)) "") "")
      as [shortest ->]; [by rewrite length_replicate|].
    rewrite addresses_loop_addresses by by rewrite length_replicate.
    done.
  - intros locations.
    destruct (shortest_loop_addresses locations 0
                (replicate (length locations) "") "")
      as [shortest ->]; [by rewrite length_replicate|].
    by exists shortest.
Qed.

End getAddress_properties.

(** *** Executions with the stand-ins *)

Example getAddress_two_candidates :
  getAddress example_ParseFloat example_Distance example_Unmarshal
    (example_env None (GetBody (inr "two"))) "1000005" example_world
  = ({| access_logs := [("1500001", 1); ("1000005", 2)];
        trace := [EvExecInsert "1000005" 2;
                  EvHTTPGet (geocoding_url "1000005")] |},
     Some {| status := 200;
             body := JObject
               [("postal_code", JString "1000005");
                ("hit_count", JInt 2);
                ("address", JString "東京都千代田区");
                ("tokyo_sta_distance", JFloat 3962.2%float)] |}).
Proof. reflexivity. Qed.

Lemma getAddress_insert_failure_witness :
  getAddress example_ParseFloat example_Distance example_Unmarshal
    (example_env (Some "pq: connection refused") (GetBody (inr "two")))
    "1000005" example_world
  = ({| access_logs := [("1500001", 1)];
        trace := [EvExecInsert "1000005" 2] |},
     Some {| status := 500;
             body := JObject [("error", JString "pq: connection refused")] |}).
Proof.
  apply (getAddress_insert_failure example_ParseFloat example_Distance
           example_Unmarshal
           (example_env (Some "pq: connection refused") (GetBody (inr "two")))
           "1000005" example_world "pq: connection refused").
  reflexivity.
Defined.

Lemma getAddress_log_before_geocoding_witness :
  let result :=
    getAddress example_ParseFloat example_Distance example_Unmarshal
      (example_env None (GetError "dial tcp: i/o timeout"))
      "1000005" example_world in
  result.2
  = Some {| status := 500;
            body := JObject [("error", JString "dial tcp: i/o timeout")] |}
  ∧ access_logs result.1 = [("1500001", 1); ("1000005", 2)]
  ∧ trace result.1
    = [EvExecInsert "1000005" 2; EvHTTPGet (geocoding_url "1000005")].
Proof.
  destruct (getAddress_log_before_geocoding example_ParseFloat
              example_Distance example_Unmarshal
              (example_env None (GetError "dial tcp: i/o timeout"))
              "1000005" example_world) as (_ & _ & H).
  apply (H "dial tcp: i/o timeout"); reflexivity.
Defined.

Lemma example_ParseFloat_syntax s :
  (example_ParseFloat s).2 = Some ErrSyntax → (example_ParseFloat s).1 = 0%float.
Proof.
  unfold example_ParseFloat.
  repeat (match goal with
          | |- context [if ?b then _ else _] => destruct b
          end; simpl; try done).
Defined.

(** The second candidate has a latitude that is not a number: it counts
    as latitude zero, and the answer is a 200. *)
Lemma getAddress_malformed_coordinates_witness :
  (∃ address,
     (getAddress example_ParseFloat example_Distance example_Unmarshal
        (example_env None (GetBody (inr "two"))) "1000005" example_world).2
     = Some {| status := 200;
               body := marshal_AppResponse
                 {| PostalCode := "1000005";
                    HitCount := 2;
                    Address := address;
                    TokyoStaDistance :=
                      (Round (distance_loop example_ParseFloat example_Distance
                                [marunouchi; otemachi] 0 * 10)
                       / 10)%float |} |})
  ∧ distance_loop example_ParseFloat example_Distance
      [marunouchi; otemachi] 0
    = lenient_max_distance example_ParseFloat example_Distance
        [marunouchi; otemachi].
Proof.
  destruct (getAddress_malformed_coordinates example_ParseFloat
              example_Distance example_Unmarshal
              (example_env None (GetBody (inr "two")))
              "1000005" example_world "two"
              {| Response_Location := [marunouchi; otemachi] |})
    as [Hok Hzero]; [reflexivity..|].
  split; [exact Hok|].
  apply Hzero. exact example_ParseFloat_syntax.
Defined.

(** Two candidates, at 0 km and at about 3962.16 km: the maximum is the
    second distance, and its tenfold, about 39621.6, is rounded to 39622. *)
Lemma getAddress_tokyo_sta_distance_witness :
  (∃ address,
     (getAddress example_ParseFloat example_Distance example_Unmarshal
        (example_env None (GetBody (inr "two"))) "1000005" example_world).2
     = Some {| status := 200;
               body := JObject
                 [("postal_code", JString "1000005");
                  ("hit_count", JInt 2);
                  ("address", JString address);
                  ("tokyo_sta_distance", JFloat 3962.2%float)] |})
  ∧ Forall (λ location,
              (distance_loop example_ParseFloat example_Distance
                 [marunouchi; otemachi] 0
               <? candidate_km example_ParseFloat example_Distance location)%float
              = false) [marunouchi; otemachi]
  ∧ (distance_loop example_ParseFloat example_Distance
       [marunouchi; otemachi] 0 = 0%float
     ∨ Exists (λ location,
                 distance_loop example_ParseFloat example_Distance
                   [marunouchi; otemachi] 0
                 = candidate_km example_ParseFloat example_Distance location)
              [marunouchi; otemachi])
  ∧ (0 <? distance_loop example_ParseFloat example_Distance
            [marunouchi; otemachi] 0)%float = true
  ∧ (distance_loop example_ParseFloat example_Distance
       [marunouchi; otemachi] 0 <? 3962.2)%float = true
  ∧ rounds_half_away_from_zero
      (Prim2SF (distance_loop example_ParseFloat example_Distance
                  [marunouchi; otemachi] 0 * 10))
      (Prim2SF 39622).
Proof.
  destruct (getAddress_tokyo_sta_distance example_ParseFloat example_Distance
              example_Unmarshal (example_env None (GetBody (inr "two")))
              "1000005" example_world "two"
              {| Response_Location := [marunouchi; otemachi] |})
    as (Hresponse & Hmax & Hcandidate & _ & _ & _ & _ & _ & _ & _ & Hround);
    [reflexivity..|].
  split; [exact Hresponse|]. split; [exact Hmax|]. split; [exact Hcandidate|].
  split; [reflexivity|]. split; [reflexivity|].
  exact (Hround (distance_loop example_ParseFloat example_Distance
                   [marunouchi; otemachi] 0 * 10)%float).
Defined.

(** ** The access-log summary *)

(** C2, as the code has it: a query that succeeds with no rows is answered
    200 with ["access_logs"] holding [null], since [logs] is still the nil
    slice; it holds a list as soon as one row was appended. *)
Theorem getAccessLogs_no_rows w :
  getAccessLogs (QueryRows [] None) w
  = (emit EvQuery w,
     {| status := 200; body := JObject [("access_logs", JNull)] |})
  ∧ JNull ≠ JArray []
  ∧ ∀ postal_code request_count,
      (getAccessLogs (QueryRows [ScanRow postal_code request_count] None)
         w).2
      = {| status := 200;
           body := JObject
             [("access_logs",
               JArray [JObject [("postal_code", JString postal_code);
                                ("request_count", JInt request_count)]])] |}.
Proof. repeat split; done. Qed.

(** ** Configuration *)

(** C8: [dbConnStr] fails exactly when the password is empty, and [main],
    once the .env file is loaded, then stops with that error; [os.Getenv]
    gives the empty string for a variable that is not set, so this is the
    password being empty or absent.  With a password, the host and the name
    go into the connection string as they are, empty or not. *)
Theorem dbConnStr_password (config : AppConfig) (env : gmap string string)
    (open_err : option string) :
  ((dbConnStr config).2 ≠ None ↔ Password config = "")
  ∧ (Password config ≠ "" →
     dbConnStr config
     = ("host=" +:+ DBHost config +:+ " user=postgres password="
        +:+ Password config +:+ " dbname=" +:+ DBName config
        +:+ " sslmode=disable", None))
  ∧ (∀ password, password ≠ "" →
     dbConnStr {| DBHost := ""; DBName := ""; Password := password |}
     = ("host= user=postgres password=" +:+ password
        +:+ " dbname= sslmode=disable", None))
  ∧ (main_startup None env open_err
     = Fatal "missing or invalid database password"
     ↔ env !! "PASSWORD" = None ∨ env !! "PASSWORD" = Some "").
Proof.
  split; [|split; [|split]].
  - unfold dbConnStr. destruct (String.eqb_spec (Password config) "").
    + by split.
    + split; [by intros []|done].
  - intros H. unfold dbConnStr.
    destruct (String.eqb_spec (Password config) ""); done.
  - intros password H. unfold dbConnStr. simpl.
    destruct (String.eqb_spec password ""); done.
  - unfold main_startup, dbConnStr, Getenv. simpl.
    destruct (env !! "PASSWORD") as [password|]; simpl.
    + destruct (String.eqb_spec password "") as [->|Hne].
      * split; [by right | done].
      * destruct open_err; split; try done.
        -- intros [?|[= ?]]; done.
        -- intros [?|[= ?]]; done.
    + split; [by left | done].
Qed.

Lemma dbConnStr_password_witness :
  dbConnStr {| DBHost := ""; DBName := ""; Password := "secret" |}
  = ("host= user=postgres password=secret dbname= sslmode=disable", None)
  ∧ main_startup None {[ "DB_HOST" := "localhost" ]} None
    = Fatal "missing or invalid database password".
Proof.
  destruct (dbConnStr_password
              {| DBHost := ""; DBName := ""; Password := "secret" |}
              {[ "DB_HOST" := "localhost" ]} None) as (_ & _ & H & Hmain).
  split.
  - apply (H "secret"). discriminate.
  - apply Hmain. left. reflexivity.
Defined.

(** * Further properties *)

(** ** The rune conversions *)

Lemma slicerunetostring_app a b :
  slicerunetostring (a ++ b) = slicerunetostring a +:+ slicerunetostring b.
Proof.
  induction a as [|r a IH]; [done|].
  simpl. by rewrite IH, string_app_assoc.
Qed.

Lemma well_formed_slicerunetostring_stringtoslicerune s :
  well_formed (slicerunetostring (stringtoslicerune s)).
Proof.
  exists (stringtoslicerune s).
  split; [apply stringtoslicerune_scalar | done].
Qed.

(** X1: [string([]rune(s))] is always well-formed UTF-8, and it is [s]
    again exactly when [s] is well-formed: the conversion pair repairs
    ill-formed bytes and changes nothing else. *)
Theorem rune_conversion_fixed_points (s : string) :
  well_formed (slicerunetostring (stringtoslicerune s))
  ∧ (slicerunetostring (stringtoslicerune s) = s ↔ well_formed s)
  ∧ stringtoslicerune (slicerunetostring (stringtoslicerune s))
    = stringtoslicerune s.
Proof.
  split; [apply well_formed_slicerunetostring_stringtoslicerune|]. split.
  - split.
    + intros <-. apply well_formed_slicerunetostring_stringtoslicerune.
    + apply slicerunetostring_stringtoslicerune.
  - apply stringtoslicerune_slicerunetostring, stringtoslicerune_scalar.
Qed.

(** X2: [[]rune(s)] has at most one rune per byte, and exactly one when
    every byte is below 0x80. *)
Theorem stringtoslicerune_length (s : string) :
  (length (stringtoslicerune s) <= String.length s)%nat
  ∧ ((∀ i b, byte_at s i = Some b → b < runeSelf) →
     length (stringtoslicerune s) = String.length s).
Proof.
  split.
  - remember (String.length s) as n eqn:Hn.
    revert s Hn. induction n as [n IH] using lt_wf_ind. intros s Hn.
    destruct s as [|c rest]; [simpl; lia|].
    rewrite stringtoslicerune_cons.
    destruct (byte_val c <? runeSelf); cbn [length].
    + specialize (IH (String.length rest)). simpl in Hn.
      specialize (IH ltac:(lia) rest eq_refl). lia.
    + pose proof (decoderune_width (String c rest)) as Hw.
      pose proof (string_drop_length (decoderune (String c rest)).2
                    (String c rest)) as Hd.
      simpl in Hn, Hd.
      specialize (IH (String.length
                        (string_drop (decoderune (String c rest)).2
                           (String c rest)))).
      specialize (IH ltac:(lia) _ eq_refl). lia.
  - induction s as [|c rest IH]; intros Hascii; [done|].
    rewrite stringtoslicerune_cons.
    pose proof (Hascii 0%nat (byte_val c) eq_refl) as Hc.
    destruct (Z.ltb_spec (byte_val c) runeSelf); [|lia].
    cbn [length String.length]. f_equal. apply IH.
    intros i b Hb. apply (Hascii (S i) b). exact Hb.
Qed.

Lemma stringtoslicerune_length_witness :
  length (stringtoslicerune "1000005") = 7%nat.
Proof.
  apply (stringtoslicerune_length "1000005").
  intros i b.
  do 8 (destruct i as [|i]; [intros [= <-]; reflexivity|]).
  discriminate.
Defined.

(** ** More on CommonPrefix *)

(** What [CommonPrefix] returns for the shared prefix [p]. *)
Lemma common_prefix_elem p (ls ls' : list (list rune)) :
  (∀ l, l ∈ ls' → l ∈ ls) → common_prefix p ls → common_prefix p ls'.
Proof.
  unfold common_prefix. rewrite !Forall_forall. auto.
Qed.

Lemma longest_common_prefix_same_elements p (ls ls' : list (list rune)) :
  (∀ l, l ∈ ls ↔ l ∈ ls') →
  longest_common_prefix p ls → longest_common_prefix p ls'.
Proof.
  intros Hel [Hp Hmax]. split.
  - eapply common_prefix_elem; [|exact Hp]. intros l. apply Hel.
  - intros q Hq. apply Hmax. eapply common_prefix_elem; [|exact Hq].
    intros l. apply Hel.
Qed.

(** X3: the result depends on which strings are in the list only: their
    order and their repetitions do not matter. *)
Theorem CommonPrefix_same_elements (strs strs' : list string) :
  (∀ s, s ∈ strs ↔ s ∈ strs') → CommonPrefix strs = CommonPrefix strs'.
Proof.
  intros Hel.
  destruct strs as [|str0 strs], strs' as [|str0' strs'].
  - done.
  - exfalso. eapply not_elem_of_nil, Hel; left.
  - exfalso. eapply not_elem_of_nil, Hel; left.
  - destruct (CommonPrefix_longest str0 strs) as (p & Hp & ->).
    destruct (CommonPrefix_longest str0' strs') as (p' & Hp' & ->).
    f_equal.
    assert (p = p') as ->; [|done].
    eapply longest_common_prefix_unique; [|exact Hp'].
    eapply longest_common_prefix_same_elements; [|exact Hp].
    intros l. rewrite !list_elem_of_fmap.
    split; intros (s & -> & Hs); exists s; (split; [done | by apply Hel]).
Qed.

Lemma CommonPrefix_same_elements_witness :
  CommonPrefix ["東京都港区"; "東京都千代田区"; "東京都港区"]
  = CommonPrefix ["東京都千代田区"; "東京都港区"].
Proof.
  apply CommonPrefix_same_elements.
  intros s. rewrite !elem_of_cons, !elem_of_nil. tauto.
Defined.

(** X4: more strings never lengthen the shared prefix: the code points
    found for a longer list are an initial sequence of those found for the
    list it extends. *)
Theorem CommonPrefix_more_strings (strs more : list string) :
  strs ≠ [] →
  ∃ p p',
    CommonPrefix strs
    = Some (if bool_decide (p = []) then "None" else slicerunetostring p)
    ∧ CommonPrefix (strs ++ more)
      = Some (if bool_decide (p' = []) then "None" else slicerunetostring p')
    ∧ longest_common_prefix p (stringtoslicerune <$> strs)
    ∧ longest_common_prefix p' (stringtoslicerune <$> (strs ++ more))
    ∧ p' `prefix_of` p.
Proof.
  intros Hne. destruct strs as [|str0 strs]; [done|].
  destruct (CommonPrefix_longest str0 strs) as (p & Hp & Hres).
  destruct (CommonPrefix_longest str0 (strs ++ more)) as (p' & Hp' & Hres').
  exists p, p'. repeat split; try done.
  - apply Hp.
  - apply Hp.
  - apply Hp'.
  - apply Hp'.
  - apply Hp. destruct Hp' as [Hp' _].
    eapply common_prefix_elem; [|exact Hp'].
    intros l. change (str0 :: strs ++ more) with ((str0 :: strs) ++ more).
    rewrite fmap_app, elem_of_app. by left.
Qed.

Lemma CommonPrefix_more_strings_witness :
  ∃ p p',
    CommonPrefix ["東京都港区"]
    = Some (if bool_decide (p = []) then "None" else slicerunetostring p)
    ∧ CommonPrefix (["東京都港区"] ++ ["東京都千代田区"])
      = Some (if bool_decide (p' = []) then "None" else slicerunetostring p')
    ∧ p' `prefix_of` p.
Proof.
  destruct (CommonPrefix_more_strings ["東京都港区"] ["東京都千代田区"])
    as (p & p' & H1 & H2 & _ & _ & H3); [done|].
  exists p, p'. by repeat split.
Defined.

(** A non-empty prefix of well-formed strings is returned as bytes that
    start each of them. *)
Lemma CommonPrefix_identical s (strs : list string) :
  strs ≠ [] → Forall (eq s) strs → s ≠ "" → well_formed s →
  CommonPrefix strs = Some s.
Proof.
  intros Hne Hall Hs Hwf. destruct strs as [|str0 strs]; [done|].
  destruct (CommonPrefix_longest str0 strs) as (p & Hp & ->).
  pose proof (longest_common_prefix_identical s (str0 :: strs) Hne Hall)
    as Hid.
  rewrite (longest_common_prefix_unique _ _ _ Hp Hid).
  rewrite bool_decide_eq_false_2 by by apply stringtoslicerune_nonempty.
  by rewrite slicerunetostring_stringtoslicerune.
Qed.

Lemma CommonPrefix_prefix_bytes (strs : list string) :
  strs ≠ [] → Forall well_formed strs →
  ∃ r, CommonPrefix strs = Some r
       ∧ (r = "None" ∨ Forall (λ s, ∃ rest, s = r +:+ rest) strs).
Proof.
  intros Hne Hwf. destruct strs as [|str0 strs]; [done|].
  destruct (CommonPrefix_longest str0 strs) as (p & [Hp _] & ->).
  destruct p as [|c p]; [exists "None"; split; [done | by left]|].
  exists (slicerunetostring (c :: p)). split; [done|]. right.
  unfold common_prefix in Hp. rewrite Forall_fmap in Hp.
  rewrite Forall_forall in *. intros s Hs.
  destruct (Hp s Hs) as [k Hk].
  exists (slicerunetostring k).
  rewrite <- slicerunetostring_app, <- Hk.
  symmetry. apply slicerunetostring_stringtoslicerune. by apply Hwf.
Qed.

(** A string that [string([]rune(s))] gives back is well-formed. *)
Lemma well_formed_check (s : string) :
  slicerunetostring (stringtoslicerune s) = s → well_formed s.
Proof.
  intros H. exists (stringtoslicerune s).
  split; [apply stringtoslicerune_scalar | done].
Defined.

(** X5: on well-formed strings the result is ["None"] or a string of
    bytes that every string of the list starts with. *)
Theorem CommonPrefix_byte_prefix (strs : list string) :
  strs ≠ [] → Forall well_formed strs →
  ∃ r, CommonPrefix strs = Some r
       ∧ (r = "None" ∨ Forall (λ s, ∃ rest, s = r +:+ rest) strs).
Proof. apply CommonPrefix_prefix_bytes. Qed.

Lemma CommonPrefix_byte_prefix_witness :
  ∃ r, CommonPrefix ["tokyo-minato"; "tokyo-chiyoda"] = Some r
       ∧ (r = "None"
          ∨ Forall (λ s, ∃ rest, s = r +:+ rest)
              ["tokyo-minato"; "tokyo-chiyoda"]).
Proof.
  apply CommonPrefix_byte_prefix; [done|].
  repeat constructor; by apply well_formed_check.
Defined.

(** The result is always well-formed and not empty. *)
Lemma CommonPrefix_result strs r :
  CommonPrefix strs = Some r → r ≠ "" ∧ well_formed r.
Proof.
  intros Hr. destruct strs as [|str0 strs].
  - injection Hr as <-. split; [done | by apply well_formed_check].
  - destruct (CommonPrefix_longest str0 strs) as (p & [Hp _] & Hres).
    rewrite Hres in Hr. injection Hr as <-.
    destruct p as [|c p].
    + split; [done | by apply well_formed_check].
    + split; [by apply slicerunetostring_nonempty|].
      exists (c :: p). split; [|done].
      inversion Hp as [|? ? [k Hk] _]; subst.
      pose proof (stringtoslicerune_scalar str0) as Hs.
      rewrite Hk in Hs. by apply Forall_app in Hs as [? _].
Qed.

(** X6: [CommonPrefix] gives its own results back: a list holding one
    result, any number of times, returns that result. *)
Theorem CommonPrefix_idempotent (strs : list string) (r : string) (n : nat) :
  CommonPrefix strs = Some r → CommonPrefix (replicate (S n) r) = Some r.
Proof.
  intros Hr. destruct (CommonPrefix_result strs r Hr) as [Hne Hwf].
  apply CommonPrefix_identical; try done.
  apply Forall_forall. intros x Hx. by apply elem_of_replicate in Hx as [-> _].
Qed.

Lemma CommonPrefix_idempotent_witness :
  CommonPrefix (replicate 2 "東京都") = Some "東京都".
Proof.
  apply (CommonPrefix_idempotent ["東京都港区"; "東京都千代田区"] "東京都" 1).
  reflexivity.
Defined.

(** X7: whatever bytes the strings hold, the result is well-formed UTF-8:
    bytes that are not are compared, and returned, as U+FFFD. *)
Theorem CommonPrefix_well_formed (strs : list string) :
  ∃ r, CommonPrefix strs = Some r ∧ well_formed r.
Proof.
  destruct (CommonPrefix_never_panics strs) as [r Hr].
  exists r. split; [done|]. by apply (CommonPrefix_result strs).
Qed.

(** X18: one empty string in the list is enough for the result to be
    ["None"]. *)
Theorem CommonPrefix_with_empty_string (strs : list string) :
  "" ∈ strs → CommonPrefix strs = Some "None".
Proof.
  intros Hin. destruct strs as [|str0 strs]; [by apply elem_of_nil in Hin|].
  destruct (CommonPrefix_longest str0 strs) as (p & [Hp _] & ->).
  unfold common_prefix in Hp. rewrite Forall_fmap, Forall_forall in Hp.
  apply Hp in Hin. simpl in Hin. rewrite stringtoslicerune_nil in Hin.
  apply prefix_nil_inv in Hin as ->. done.
Qed.

Lemma CommonPrefix_with_empty_string_witness :
  CommonPrefix ["東京都港区"; ""; "東京都千代田区"] = Some "None".
Proof.
  apply CommonPrefix_with_empty_string.
  rewrite !elem_of_cons. right. by left.
Defined.

(** ** More on getAddress *)

Section getAddress_outcomes.
Variable ParseFloat : string → float * option NumError.
Variable Distance : Coord → Coord → float * float.
Variable Unmarshal : string → string + APIResponse.

(** X8: the handler always answers, with a 200 or a 500, and with a 200
    exactly when the insert, the request, the reading of the body and its
    decoding have all succeeded. *)
Theorem getAddress_status env postalCode w :
  ∃ r, (getAddress ParseFloat Distance Unmarshal env postalCode w).2 = Some r
       ∧ (status r = StatusOK ∨ status r = StatusInternalServerError)
       ∧ (status r = StatusOK ↔
          exec_err env = None
          ∧ ∃ body apiResponse,
              http_Get env (geocoding_url postalCode) = GetBody (inr body)
              ∧ Unmarshal body = inr apiResponse).
Proof.
  destruct (exec_err env) as [e|] eqn:H.
  { rewrite (getAddress_insert_error _ _ _ _ _ _ e H).
    eexists. split; [done|]. split; [by right|]. simpl. split; [done|].
    by intros [? _]. }
  assert (∀ e, geocoding_fails Unmarshal env postalCode e →
               ¬ ∃ body apiResponse,
                   http_Get env (geocoding_url postalCode) = GetBody (inr body)
                   ∧ Unmarshal body = inr apiResponse) as Hno.
  { intros e Hfail (body & apiResponse & Hget & Hjson).
    unfold geocoding_fails in Hfail. rewrite Hget, Hjson in Hfail. done. }
  assert (∀ e, geocoding_fails Unmarshal env postalCode e →
               ∃ r, (getAddress ParseFloat Distance Unmarshal
                       env postalCode w).2 = Some r
                    ∧ (status r = StatusOK
                       ∨ status r = StatusInternalServerError)
                    ∧ (status r = StatusOK ↔
                       @None string = None
                       ∧ ∃ body apiResponse,
                           http_Get env (geocoding_url postalCode)
                           = GetBody (inr body)
                           ∧ Unmarshal body = inr apiResponse)) as Hfails.
  { intros e Hfail.
    rewrite (getAddress_geocoding_error _ _ _ _ _ _ e H Hfail).
    eexists. split; [done|]. split; [by right|]. simpl. split; [done|].
    intros [_ Hok]. by destruct (Hno e Hfail). }
  destruct (http_Get env (geocoding_url postalCode)) as [e|[e|body]] eqn:Hget.
  - apply (Hfails e). unfold geocoding_fails. by rewrite Hget.
  - apply (Hfails e). unfold geocoding_fails. by rewrite Hget.
  - destruct (Unmarshal body) as [e|apiResponse] eqn:Hjson.
    + apply (Hfails e). unfold geocoding_fails. by rewrite Hget.
    + destruct (getAddress_ok ParseFloat Distance Unmarshal env postalCode
                  w body apiResponse H Hget Hjson) as (address & _ & ->).
      eexists. split; [done|]. split; [by left|]. simpl. split; [|done].
      intros _. split; [done|]. by exists body, apiResponse.
Qed.

(** X9: when the geocoding service knows no place for the postal code,
    the answer is still a 200: no hit, the address
    ["Error: func commonPrefix"] and the distance zero. *)
Theorem getAddress_no_candidates env postalCode w body apiResponse :
  exec_err env = None →
  http_Get env (geocoding_url postalCode) = GetBody (inr body) →
  Unmarshal body = inr apiResponse →
  Response_Location apiResponse = [] →
  (getAddress ParseFloat Distance Unmarshal env postalCode w).2
  = Some {| status := 200;
            body := JObject
              [("postal_code", JString postalCode);
               ("hit_count", JInt 0);
               ("address", JString "Error: func commonPrefix");
               ("tokyo_sta_distance", JFloat 0%float)] |}.
Proof.
  intros H Hget Hjson Hnil.
  destruct (getAddress_ok ParseFloat Distance Unmarshal env postalCode
              w body apiResponse H Hget Hjson) as (address & Haddress & ->).
  rewrite Hnil in *. simpl in Haddress. injection Haddress as <-.
  reflexivity.
Qed.

(** X10: with candidates whose addresses are well-formed UTF-8, the
    address of the answer is ["None"] or a string that the
    prefecture+city+town of every candidate starts with. *)
Theorem getAddress_address_prefix env postalCode w body apiResponse :
  exec_err env = None →
  http_Get env (geocoding_url postalCode) = GetBody (inr body) →
  Unmarshal body = inr apiResponse →
  Response_Location apiResponse ≠ [] →
  Forall (λ location, well_formed (address_of location))
         (Response_Location apiResponse) →
  ∃ address distance,
    (getAddress ParseFloat Distance Unmarshal env postalCode w).2
    = Some {| status := 200;
              body := JObject
                [("postal_code", JString postalCode);
                 ("hit_count",
                  JInt (Z.of_nat (length (Response_Location apiResponse))));
                 ("address", JString address);
                 ("tokyo_sta_distance", JFloat distance)] |}
    ∧ (address = "None"
       ∨ Forall (λ location, ∃ rest, address_of location = address +:+ rest)
                (Response_Location apiResponse)).
Proof.
  intros H Hget Hjson Hne Hwf.
  destruct (getAddress_ok ParseFloat Distance Unmarshal env postalCode
              w body apiResponse H Hget Hjson) as (address & Haddress & ->).
  exists address. eexists. split; [done|].
  destruct (CommonPrefix_prefix_bytes
              (address_of <$> Response_Location apiResponse))
    as (r & Hr & Hprefix).
  - by destruct (Response_Location apiResponse).
  - by rewrite Forall_fmap.
  - rewrite Hr in Haddress. injection Haddress as <-.
    destruct Hprefix as [->|Hprefix]; [by left|]. right.
    by rewrite Forall_fmap in Hprefix.
Qed.

(** The second loop only moves upwards. *)
Lemma distance_loop_above locations : ∀ maxDistance,
  let result := distance_loop ParseFloat Distance locations maxDistance in
  result = maxDistance ∨ (maxDistance <? result)%float = true.
Proof.
  induction locations as [|location rest IH]; intros m; [by left|].
  cbn [distance_loop]. fold (candidate_km ParseFloat Distance location).
  set (km := candidate_km ParseFloat Distance location).
  destruct (m <? km)%float eqn:Hlt.
  - right. destruct (IH km) as [->|Hkm]; [done|].
    by apply (ltb_trans m km).
  - apply IH.
Qed.

(** Candidates that are not above the maximum leave it as it is. *)
Lemma distance_loop_unchanged locations : ∀ maxDistance,
  Forall (λ location,
            (maxDistance <? candidate_km ParseFloat Distance location)%float
            = false) locations →
  distance_loop ParseFloat Distance locations maxDistance = maxDistance.
Proof.
  induction locations as [|location rest IH]; intros m Hall; [done|].
  apply Forall_cons in Hall as [Hkm Hall].
  cbn [distance_loop]. fold (candidate_km ParseFloat Distance location).
  rewrite Hkm. by apply IH.
Qed.

(** X11: whatever the distance function returns, NaN and negative values
    included, the maximum the handler keeps is a number that is not below
    zero: it is the starting 0.0 or above it, and it is 0.0 when no
    candidate has a distance above zero. *)
Theorem distance_loop_not_negative (locations : list Location) :
  let maxDistance := distance_loop ParseFloat Distance locations 0 in
  (maxDistance =? maxDistance)%float = true
  ∧ (maxDistance <? 0)%float = false
  ∧ (maxDistance = 0%float ∨ (0 <? maxDistance)%float = true)
  ∧ (Forall (λ location,
               (0 <? candidate_km ParseFloat Distance location)%float = false)
            locations → maxDistance = 0%float).
Proof.
  intros maxDistance. split; [|split; [|split]].
  - by apply distance_loop_not_nan.
  - by apply distance_loop_not_below.
  - apply distance_loop_above.
  - apply distance_loop_unchanged.
Qed.

(** The shortest address of the first loop, from any state of the loop. *)
Lemma shortest_loop_invariant locations : ∀ i addresses shortest r,
  Forall (λ location, address_of location ≠ "") locations →
  shortest_loop i locations addresses shortest = Some r →
  (r.2 = shortest ∨ r.2 ∈ address_of <$> locations)
  ∧ (shortest ≠ "" ∨ locations ≠ [] → r.2 ≠ "")
  ∧ (shortest ≠ "" → (String.length r.2 <= String.length shortest)%nat)
  ∧ Forall (λ location,
              (String.length r.2 <= String.length (address_of location))%nat)
           locations.
Proof.
  induction locations as [|location rest IH];
    intros i addresses shortest r Hne Hr.
  - injection Hr as <-. simpl. repeat split; try done; [by left|].
    by intros [?|?].
  - cbn [shortest_loop] in Hr.
    destruct (bool_decide (i < length addresses)%nat) eqn:Hi; [|done].
    apply bool_decide_eq_true_1 in Hi.
    rewrite list_lookup_insert_eq in Hr by done. simpl in Hr.
    apply Forall_cons in Hne as [Hloc Hne].
    apply IH in Hr as (Hin & Hr0 & Hle & Hall); [|done].
    destruct (String.eqb_spec shortest "") as [->|Hs]; simpl in *.
    + specialize (Hr0 (or_introl Hloc)). specialize (Hle Hloc).
      repeat split; try done.
      * right. destruct Hin as [->|Hin]; [left | by right].
      * by constructor.
    + destruct (Nat.ltb_spec (String.length (address_of location))
                  (String.length shortest)) as [Hlt|Hge]; simpl in *.
      * specialize (Hr0 (or_introl Hloc)). specialize (Hle Hloc).
        repeat split; try done.
        -- right. destruct Hin as [->|Hin]; [left | by right].
        -- intros _. lia.
        -- by constructor.
      * specialize (Hr0 (or_introl Hs)). specialize (Hle Hs).
        repeat split; try done.
        -- destruct Hin as [->|Hin]; [by left | right; by right].
        -- constructor; [lia | done].
Qed.

(** X12: the first loop leaves in [shortestAddress] an address of the
    list with the fewest bytes, provided no address is empty (an empty
    [shortestAddress] is taken for no address yet, and replaced). *)
Theorem shortest_loop_shortest (locations : list Location) :
  locations ≠ [] →
  Forall (λ location, address_of location ≠ "") locations →
  ∃ addresses shortestAddress,
    shortest_loop 0 locations (replicate (length locations) "") ""
    = Some (addresses, shortestAddress)
    ∧ shortestAddress ∈ address_of <$> locations
    ∧ Forall (λ location,
                (String.length shortestAddress
                 <= String.length (address_of location))%nat) locations.
Proof.
  intros Hnil Hne.
  destruct (shortest_loop_addresses locations 0
              (replicate (length locations) "") "")
    as [shortest Hs]; [by rewrite length_replicate|].
  eexists _, shortest. split; [exact Hs|].
  destruct (shortest_loop_invariant locations 0 _ "" _ Hne Hs)
    as (Hin & Hr0 & _ & Hall). simpl in *.
  split; [|done].
  destruct Hin as [Hin|Hin]; [|done].
  destruct Hr0; [by right | done].
Qed.

End getAddress_outcomes.

Lemma getAddress_no_candidates_witness :
  (getAddress example_ParseFloat example_Distance example_Unmarshal
     (example_env None (GetBody (inr "none"))) "9999999" example_world).2
  = Some {| status := 200;
            body := JObject
              [("postal_code", JString "9999999");
               ("hit_count", JInt 0);
               ("address", JString "Error: func commonPrefix");
               ("tokyo_sta_distance", JFloat 0%float)] |}.
Proof.
  apply (getAddress_no_candidates example_ParseFloat example_Distance
           example_Unmarshal (example_env None (GetBody (inr "none")))
           "9999999" example_world "none" {| Response_Location := [] |});
    reflexivity.
Defined.

Lemma getAddress_address_prefix_witness :
  ∃ address distance,
    (getAddress example_ParseFloat example_Distance example_Unmarshal
       (example_env None (GetBody (inr "two"))) "1000005" example_world).2
    = Some {| status := 200;
              body := JObject
                [("postal_code", JString "1000005");
                 ("hit_count", JInt 2);
                 ("address", JString address);
                 ("tokyo_sta_distance", JFloat distance)] |}
    ∧ (address = "None"
       ∨ Forall (λ location, ∃ rest, address_of location = address +:+ rest)
                [marunouchi; otemachi]).
Proof.
  apply (getAddress_address_prefix example_ParseFloat example_Distance
           example_Unmarshal (example_env None (GetBody (inr "two")))
           "1000005" example_world "two"
           {| Response_Location := [marunouchi; otemachi] |});
    try reflexivity; [done|].
  repeat constructor; by apply well_formed_check.
Defined.

Lemma shortest_loop_shortest_witness :
  ∃ addresses shortestAddress,
    shortest_loop 0 [marunouchi; otemachi] (replicate 2 "") ""
    = Some (addresses, shortestAddress)
    ∧ shortestAddress ∈ address_of <$> [marunouchi; otemachi]
    ∧ Forall (λ location,
                (String.length shortestAddress
                 <= String.length (address_of location))%nat)
             [marunouchi; otemachi].
Proof.
  apply (shortest_loop_shortest [marunouchi; otemachi]); [done|].
  repeat constructor; done.
Defined.

(** ** More on getAccessLogs *)

Lemma scan_loop_scanned (logs : list AccessLog) : ∀ read,
  scan_loop (scanned <$> logs) (make_slice read)
  = inr (make_slice (read ++ logs)).
Proof.
  induction logs as [|[postal_code request_count] logs IH]; intros read.
  - simpl. by rewrite app_nil_r.
  - simpl. rewrite IH. by rewrite <- app_assoc.
Qed.

Lemma scan_loop_scanned_nil (logs : list AccessLog) :
  scan_loop (scanned <$> logs) nil_slice
  = inr (if bool_decide (logs = []) then nil_slice else make_slice logs).
Proof.
  destruct logs as [|[postal_code request_count] logs]; [done|].
  simpl. apply (scan_loop_scanned logs [_]).
Qed.

Lemma scan_loop_error (logs : list AccessLog) e rest : ∀ read,
  scan_loop ((scanned <$> logs) ++ ScanError e :: rest) read = inl e.
Proof.
  induction logs as [|[postal_code request_count] logs IH]; intros read.
  - done.
  - simpl. apply IH.
Qed.

(** Every list of scan results is rows read without error, followed by
    nothing or by a first error. *)
Lemma scan_results_split (rows : list ScanResult) :
  ∃ logs : list AccessLog,
    rows = scanned <$> logs
    ∨ ∃ e rest, rows = (scanned <$> logs) ++ ScanError e :: rest.
Proof.
  induction rows as [|[e|postal_code request_count] rows IH].
  - exists []. by left.
  - exists []. right. by exists e, rows.
  - destruct IH as [logs [->| (e & rest & ->)]].
    + exists ({| AccessLog_PostalCode := postal_code;
                 AccessLog_RequestCount := request_count |} :: logs).
      by left.
    + exists ({| AccessLog_PostalCode := postal_code;
                 AccessLog_RequestCount := request_count |} :: logs).
      right. by exists e, rest.
Qed.

(** X13: when every row is read and the query ends without error, the
    answer is a 200 whose ["access_logs"] lists the rows in the order the
    database gave them, one object with [postal_code] and [request_count]
    for each row. *)
Theorem getAccessLogs_rows_in_order (logs : list AccessLog) (w : World) :
  logs ≠ [] →
  getAccessLogs (QueryRows (scanned <$> logs) None) w
  = (emit EvQuery w,
     {| status := 200;
        body := JObject
          [("access_logs",
            JArray ((λ log,
                       JObject
                         [("postal_code", JString (AccessLog_PostalCode log));
                          ("request_count",
                           JInt (AccessLog_RequestCount log))])
                    <$> logs))] |}).
Proof.
  intros Hne. unfold getAccessLogs. rewrite scan_loop_scanned_nil.
  by rewrite bool_decide_eq_false_2.
Qed.

Lemma getAccessLogs_rows_in_order_witness :
  getAccessLogs (QueryRows [ScanRow "1000005" 3; ScanRow "1500001" 1] None)
    example_world
  = (emit EvQuery example_world,
     {| status := 200;
        body := JObject
          [("access_logs",
            JArray [JObject [("postal_code", JString "1000005");
                             ("request_count", JInt 3)];
                    JObject [("postal_code", JString "1500001");
                             ("request_count", JInt 1)]])] |}).
Proof.
  apply (getAccessLogs_rows_in_order
           [{| AccessLog_PostalCode := "1000005"; AccessLog_RequestCount := 3 |};
            {| AccessLog_PostalCode := "1500001"; AccessLog_RequestCount := 1 |}]
           example_world).
  done.
Defined.

(** X14: the summary is answered with a 200 or a 500, and with a 200
    exactly when the query, the reading of every row and the end of the
    iteration are all without error; either way the handler issues the
    one query and leaves the table as it is. *)
Theorem getAccessLogs_status (q : QueryResult) (w : World) :
  let result := getAccessLogs q w in
  (status result.2 = StatusOK ∨ status result.2 = StatusInternalServerError)
  ∧ (status result.2 = StatusOK
     ↔ ∃ logs : list AccessLog, q = QueryRows (scanned <$> logs) None)
  ∧ access_logs result.1 = access_logs w
  ∧ trace result.1 = trace w ++ [EvQuery].
Proof.
  intros result. subst result. unfold getAccessLogs.
  destruct q as [e|rows rows_err].
  { simpl. repeat split; try done; [by right|]. by intros [logs ?]. }
  destruct (scan_results_split rows) as [logs [->| (e & rest & ->)]].
  - rewrite scan_loop_scanned_nil. destruct rows_err as [e|]; simpl.
    + repeat split; try done; [by right|]. by intros [logs' ?].
    + repeat split; try done; [by left|]. intros _. by exists logs.
  - rewrite scan_loop_error. simpl.
    repeat split; try done; [by right|].
    intros [logs' [= Heq _]]. exfalso.
    apply (f_equal (λ l, l !! length logs)) in Heq.
    rewrite lookup_app_r in Heq by by rewrite length_fmap.
    rewrite length_fmap, Nat.sub_diag in Heq. simpl in Heq.
    rewrite list_lookup_fmap in Heq.
    by destruct (logs' !! length logs).
Qed.

(** X15: the first error ends the summary with a 500 carrying its
    message: a row that cannot be read, whatever was read before it and
    whatever follows, and else the error the iteration ended with; the
    rows read so far are not sent. *)
Theorem getAccessLogs_first_error (logs : list AccessLog) (e : string)
    (w : World) :
  (∀ rest rows_err,
     getAccessLogs (QueryRows ((scanned <$> logs) ++ ScanError e :: rest)
                      rows_err) w
     = (emit EvQuery w,
        {| status := 500; body := JObject [("error", JString e)] |}))
  ∧ getAccessLogs (QueryRows (scanned <$> logs) (Some e)) w
    = (emit EvQuery w,
       {| status := 500; body := JObject [("error", JString e)] |})
  ∧ getAccessLogs (QueryError e) w
    = (emit EvQuery w,
       {| status := 500; body := JObject [("error", JString e)] |}).
Proof.
  split; [|split].
  - intros rest rows_err. unfold getAccessLogs. by rewrite scan_loop_error.
  - unfold getAccessLogs. by rewrite scan_loop_scanned_nil.
  - done.
Qed.

(** ** More on the start of main *)

(** X16: the server is started exactly when the .env file is loaded, a
    password that is not empty is set and [sql.Open] succeeds; it then
    runs on the connection string made of the three variables, a host or
    a name that is not set counting as empty.  In every other case [main]
    ends in [log.Fatal]. *)
Theorem main_startup_serving (load_err : option string)
    (env : gmap string string) (open_err : option string) :
  (∀ connStr,
     main_startup load_err env open_err = Serving connStr
     ↔ load_err = None ∧ open_err = None
       ∧ ∃ password,
           env !! "PASSWORD" = Some password ∧ password ≠ ""
           ∧ connStr
             = "host=" +:+ default "" (env !! "DB_HOST")
               +:+ " user=postgres password=" +:+ password
               +:+ " dbname=" +:+ default "" (env !! "DB_NAME")
               +:+ " sslmode=disable")
  ∧ ((¬ ∃ connStr, main_startup load_err env open_err = Serving connStr)
     → ∃ msg, main_startup load_err env open_err = Fatal msg).
Proof.
  split.
  - intros connStr. unfold main_startup, dbConnStr, Getenv. simpl.
    destruct load_err as [e|].
    { split; [done|]. by intros [? _]. }
    destruct (env !! "PASSWORD") as [password|] eqn:Hp; simpl.
    + destruct (String.eqb_spec password "") as [->|Hne].
      * split; [done|]. by intros (_ & _ & password & [= <-] & ? & _).
      * destruct open_err as [e|].
        { split; [done|]. by intros (_ & ? & _). }
        split.
        -- intros [= <-]. repeat split; try done. by exists password.
        -- by intros (_ & _ & password' & [= <-] & _ & ->).
    + split; [done|]. by intros (_ & _ & password & ? & _).
  - intros Hno. destruct (main_startup load_err env open_err) as [msg|connStr].
    + by exists msg.
    + destruct Hno. by exists connStr.
Qed.

(** X17: the three ways [main] gives up, in the order it checks them: a
    .env file that cannot be loaded hides the two others, and a missing
    password hides a database that cannot be opened. *)
Theorem main_startup_fatal (load_err : option string)
    (env : gmap string string) (open_err : option string) (msg : string) :
  main_startup load_err env open_err = Fatal msg
  ↔ (load_err ≠ None ∧ msg = "Error loading .env file")
    ∨ (load_err = None ∧ default "" (env !! "PASSWORD") = ""
       ∧ msg = "missing or invalid database password")
    ∨ (load_err = None ∧ default "" (env !! "PASSWORD") ≠ ""
       ∧ ∃ err, open_err = Some err
                ∧ msg = "Failed to connect to database:" +:+ err).
Proof.
  unfold main_startup, dbConnStr, Getenv. simpl.
  destruct load_err as [e|].
  { split.
    - intros [= <-]. by left.
    - intros [[_ ->]|[(? & _)|(? & _)]]; done. }
  destruct (String.eqb_spec (default "" (env !! "PASSWORD")) "")
    as [Hp|Hp].
  { split.
    - intros [= <-]. right. by left.
    - intros [[? _]|[(_ & _ & ->)|(_ & ? & _)]]; done. }
  destruct open_err as [err|].
  - split.
    + intros [= <-]. right. right. repeat split; try done. by exists err.
    + intros [[? _]|[(_ & ? & _)|(_ & _ & err' & [= <-] & ->)]]; done.
  - split; [done|].
    intros [[? _]|[(_ & ? & _)|(_ & _ & err' & ? & _)]]; done.
Qed.
